(** * The input firewall of AI_INPUT_FIREWALL_&_RESPONSE_SYSTEM.py

    A shallow embedding of the FastAPI backend of the file: the rule
    matcher [rule_based_checks], the memoised classifier adapter
    [classify_input_with_ollama], the response adapter
    [generate_ollama_response], the orchestrator [is_input_safe] and
    the endpoint [check_input].

    Conventions of the model.
    - A Python [str] is a sequence of Unicode code points, the type
      [str] below; a literal of the source is the sequence of its
      characters.
    - What Python's character database decides is not in the source
      and is taken as given: which code points are blank and which
      alphanumeric, [str.lower], [str.upper], and which code points a
      letter of a pattern matches under re.IGNORECASE (the record
      [Unicode]). Every property is proved for all such tables, so
      for Python's in particular.
    - Scores are IEEE binary64 numbers, the kernel's [float].
    - A [dict] literal is the list of its items in the order written.
    - The two LangChain chains are the only sources of non-determinism:
      each is a function giving the outcome of its n-th invocation. *)

From Stdlib Require Import List Bool Arith NArith Lia.
From Stdlib Require Import Strings.Byte.
From Stdlib Require Import Floats.PrimFloat.
Import ListNotations.

Set Warnings "-inexact-float".

(** ** Python strings *)

(** A code point. *)
Definition char : Set := N.

Inductive str : Set :=
| EmptyStr
| Ch (c : char) (s : str).

Module Str.

(** Literals: the characters of a literal of the source, which are all
    below 128. *)
Fixpoint of_bytes (bs : list byte) : option str :=
  match bs with
  | [] => Some EmptyStr
  | b :: bs' =>
      if N.ltb (Byte.to_N b) 128
      then option_map (Ch (Byte.to_N b)) (of_bytes bs')
      else None
  end.

Fixpoint to_bytes (s : str) : option (list byte) :=
  match s with
  | EmptyStr => Some []
  | Ch c s' =>
      match Byte.of_N c, to_bytes s' with
      | Some b, Some bs => Some (b :: bs)
      | _, _ => None
      end
  end.

(** [a + b] *)
Fixpoint append (a b : str) : str :=
  match a with
  | EmptyStr => b
  | Ch c a' => Ch c (append a' b)
  end.

(** [len(s)] *)
Fixpoint length (s : str) : nat :=
  match s with
  | EmptyStr => 0
  | Ch _ s' => S (length s')
  end.

(** [a == b] *)
Fixpoint eqb (a b : str) : bool :=
  match a, b with
  | EmptyStr, EmptyStr => true
  | Ch c a', Ch d b' => N.eqb c d && eqb a' b'
  | _, _ => false
  end.

(** [hay.startswith(w)] *)
Fixpoint prefix (w hay : str) : bool :=
  match w with
  | EmptyStr => true
  | Ch c w' =>
      match hay with
      | EmptyStr => false
      | Ch d hay' => N.eqb c d && prefix w' hay'
      end
  end.

(** [needle in hay]: [needle] occurs in [hay] as a substring. *)
Fixpoint contains (needle hay : str) : bool :=
  prefix needle hay ||
  match hay with
  | Ch _ hay' => contains needle hay'
  | EmptyStr => false
  end.

(** [s[:n]]: the first [n] code points of [s], all of [s] when it has
    fewer. *)
Fixpoint slice_to (n : nat) (s : str) : str :=
  match n, s with
  | S n', Ch c s' => Ch c (slice_to n' s')
  | _, _ => EmptyStr
  end.

(** Truthiness of a string: only the empty string is false. *)
Definition truthy (s : str) : bool :=
  match s with EmptyStr => false | Ch _ _ => true end.

(** [a or b] on strings. *)
Definition or_else (a b : str) : str := if truthy a then a else b.

Fixpoint map (f : char -> char) (s : str) : str :=
  match s with
  | EmptyStr => EmptyStr
  | Ch c s' => Ch (f c) (map f s')
  end.

Lemma eqb_refl (a : str) : eqb a a = true.
Proof.
  induction a as [|c a IH]; simpl; [reflexivity|].
  now rewrite N.eqb_refl, IH.
Qed.

Lemma eqb_eq (a b : str) : eqb a b = true <-> a = b.
Proof.
  split; [|intros ->; apply eqb_refl].
  revert b. induction a as [|c a IH]; intros [|d b]; simpl; try discriminate.
  - reflexivity.
  - intros H. apply andb_prop in H as [Hc H].
    apply N.eqb_eq in Hc. apply IH in H. now subst.
Qed.

Lemma eqb_spec (a b : str) : reflect (a = b) (eqb a b).
Proof. apply iff_reflect. symmetry. apply eqb_eq. Qed.

Lemma eqb_neq (a b : str) : eqb a b = false <-> a <> b.
Proof.
  destruct (eqb_spec a b) as [->|Hne]; split; congruence.
Qed.

End Str.

Declare Scope str_scope.
Delimit Scope str_scope with str.
Bind Scope str_scope with str.
String Notation str Str.of_bytes Str.to_bytes : str_scope.
Infix "++" := Str.append (right associativity, at level 60) : str_scope.

Local Open Scope str_scope.
Local Open Scope list_scope.

(** ** What Python's character database decides *)

Record Unicode : Type := {
  isspace : char -> bool;              (* str.isspace on one code point; also \s *)
  isalnum : char -> bool;              (* str.isalnum on one code point *)
  lower : str -> str;                  (* str.lower *)
  upper : str -> str;                  (* str.upper *)
  ignorecase_eq : char -> char -> bool (* a pattern's letter against a code
                                          point of the text, re.IGNORECASE *)
}.

(** Python's tables on code points below 128: on a text of such code
    points [str.isspace], [str.isalnum], [str.lower], [str.upper] and
    re.IGNORECASE give what the functions below give. They serve to
    run the model on the sample inputs further down, all of them such
    texts; on other code points they are not Python's, and nothing is
    concluded from them there. *)
Module AsciiText.

Definition in_range (lo hi : N) (c : char) : bool :=
  (N.leb lo c && N.leb c hi)%bool.

(** TAB, LF, VT, FF, CR, the four separators FS, GS, RS, US, and the
    space. *)
Definition isspace (c : char) : bool :=
  in_range 9 13 c || in_range 28 32 c.

Definition isupper (c : char) : bool := in_range 65 90 c.
Definition islower (c : char) : bool := in_range 97 122 c.
Definition isdigit (c : char) : bool := in_range 48 57 c.

Definition isalnum (c : char) : bool := isdigit c || isupper c || islower c.

Definition lower_char (c : char) : char :=
  if isupper c then (c + 32)%N else c.

Definition upper_char (c : char) : char :=
  if islower c then (c - 32)%N else c.

Definition lower (s : str) : str := Str.map lower_char s.
Definition upper (s : str) : str := Str.map upper_char s.

Definition ignorecase_eq (l c : char) : bool :=
  N.eqb (lower_char c) (lower_char l).

End AsciiText.

Definition ascii_text : Unicode :=
  {| isspace := AsciiText.isspace;
     isalnum := AsciiText.isalnum;
     lower := AsciiText.lower;
     upper := AsciiText.upper;
     ignorecase_eq := AsciiText.ignorecase_eq |}.

(** ** Regular expressions, as far as [SQL_INJECTION_REGEX] needs them *)

Module Re.

Inductive item : Type :=
| Literal (c : char)        (* one character of the pattern *)
| CategorySpace.            (* \s *)

Inductive regex : Type :=
| Empty
| One (i : item)
| Repeat1 (i : item)        (* i+ : one or more, longest first *)
| WordBoundary              (* \b *)
| Seq (r1 r2 : regex)
| Branch (r1 r2 : regex).   (* r1|r2 *)

Record pattern : Type := compile { ignorecase : bool; tree : regex }.

Definition cont : Type := option char -> str -> bool.

(** The pattern that spells a word letter by letter. *)
Fixpoint word (w : str) : regex :=
  match w with
  | EmptyStr => Empty
  | Ch c w' => Seq (One (Literal c)) (word w')
  end.

End Re.

(** ** Configuration *)

Definition BLOCKLIST : list str :=
  ["hack"; "exploit"; "malicious"; "inject"; "root"].

(** r"\b(DROP\s+TABLE|UNION\s+SELECT|INSERT\s+INTO|DELETE\s+FROM)\b",
    re.IGNORECASE *)
Definition SQL_INJECTION_REGEX : Re.pattern :=
  let two a b :=
    Re.Seq (Re.word a) (Re.Seq (Re.Repeat1 Re.CategorySpace) (Re.word b)) in
  Re.compile true
    (Re.Seq Re.WordBoundary
       (Re.Seq
          (Re.Branch (two "DROP" "TABLE")
             (Re.Branch (two "UNION" "SELECT")
                (Re.Branch (two "INSERT" "INTO") (two "DELETE" "FROM"))))
          Re.WordBoundary)).

Definition CACHE_SIZE : nat := 1000.
Definition CONFIDENCE_THRESHOLD : float := 0.8%float.

Definition KEYWORD_REASON : str := "Blocked due to prohibited keyword.".
Definition INJECTION_REASON : str := "SQL injection attempt detected.".

(** ** Python values, exceptions and the state the backend runs in *)

Inductive value : Type :=
| VNone
| VStr (s : str)
| VFloat (f : float).

(** A [dict] with str keys, as the list of its items. *)
Definition Dict : Type := list (str * value).

Fixpoint lookup (key : str) (d : Dict) : option value :=
  match d with
  | [] => None
  | (k, v) :: d' => if Str.eqb k key then Some v else lookup key d'
  end.

Inductive exn : Type :=
| Exception (msg : str)
| KeyError (key : str)
| TypeError (msg : str).

(** [str(e)], what an f-string prints for an exception. *)
Definition str_of_exn (e : exn) : str :=
  match e with
  | Exception msg => msg
  | KeyError key => ("'" ++ key ++ "'")%str
  | TypeError msg => msg
  end.

Inductive result (A : Type) : Type :=
| Returned (a : A)
| Raised (e : exn).

Arguments Returned {A} a.
Arguments Raised {A} e.

(** The store of [functools.lru_cache]: the entries from the least
    recently used one to the most recently used one. A hit hands out
    the stored dict itself; its only reader, [is_input_safe], never
    writes to it. *)
Definition Cache : Type := list (str * Dict).

Record State : Type := mkState {
  lru : Cache;                    (* cache of classify_input_with_ollama *)
  classify_calls : list str;   (* arguments of classification_chain.invoke, newest first *)
  generate_calls : list str;   (* arguments of response_chain.invoke, newest first *)
  stdout : list str            (* the lines printed so far *)
}.

Definition initial_state : State := mkState [] [] [] [].

(** Computations that read and write the state and may raise. *)
Definition M (A : Type) : Type := State -> result A * State.

Definition ret {A : Type} (a : A) : M A := fun s => (Returned a, s).

Definition raise {A : Type} (e : exn) : M A := fun s => (Raised e, s).

Definition bind {A B : Type} (m : M A) (f : A -> M B) : M B :=
  fun s =>
    match m s with
    | (Returned a, s') => f a s'
    | (Raised e, s') => (Raised e, s')
    end.

(** [try: body  except Exception as e: handler]. *)
Definition try_except {A : Type} (body : M A) (handler : exn -> M A) : M A :=
  fun s =>
    match body s with
    | (Returned a, s') => (Returned a, s')
    | (Raised e, s') => handler e s'
    end.

Declare Scope py_scope.
Delimit Scope py_scope with py.
Notation "x <- m ;; k" := (bind m (fun x => k))
  (at level 61, m at next level, right associativity) : py_scope.
Notation "m ;;; k" := (bind m (fun _ => k))
  (at level 61, right associativity) : py_scope.
Local Open Scope py_scope.

Definition print (line : str) : M unit :=
  fun s =>
    (Returned tt,
     mkState (lru s) (classify_calls s) (generate_calls s) (stdout s ++ [line])).

Definition get_cache : M Cache := fun s => (Returned (lru s), s).

Definition with_lru (c : Cache) (s : State) : State :=
  mkState c (classify_calls s) (generate_calls s) (stdout s).

Definition set_cache (c : Cache) : M unit :=
  fun s => (Returned tt, with_lru c s).

(** [d[key]] *)
Definition getitem (d : Dict) (key : str) : M value :=
  match lookup key d with
  | Some v => ret v
  | None => raise (KeyError key)
  end.

(** [a == b] *)
Definition py_eq (a b : value) : bool :=
  match a, b with
  | VNone, VNone => true
  | VStr x, VStr y => Str.eqb x y
  | VFloat x, VFloat y => PrimFloat.eqb x y
  | _, _ => false
  end.

(** [a > b]: defined between numbers only. *)
Definition py_gt (a b : value) : M bool :=
  match a, b with
  | VFloat x, VFloat y => ret (PrimFloat.ltb y x)
  | _, _ => raise (TypeError "'>' not supported between these instances")
  end.

(** ** functools.lru_cache *)

Fixpoint cache_get (key : str) (c : Cache) : option Dict :=
  match c with
  | [] => None
  | (k, v) :: c' => if Str.eqb k key then Some v else cache_get key c'
  end.

Fixpoint cache_remove (key : str) (c : Cache) : Cache :=
  match c with
  | [] => []
  | (k, v) :: c' =>
      if Str.eqb k key then cache_remove key c' else (k, v) :: cache_remove key c'
  end.

(** A hit makes the entry the most recently used one. *)
Definition move_to_end (key : str) (v : Dict) (c : Cache) : Cache :=
  cache_remove key c ++ [(key, v)].

(** Storing the result of a miss: a full cache first drops its least
    recently used entry. *)
Definition cache_put (maxsize : nat) (key : str) (v : Dict) (c : Cache) : Cache :=
  match cache_get key c with
  | Some _ => c
  | None =>
      if Nat.leb maxsize (length c) then tl c ++ [(key, v)] else c ++ [(key, v)]
  end.

Definition lru_cache (maxsize : nat) (user_function : str -> M Dict)
    (key : str) : M Dict :=
  if Nat.eqb maxsize 0 then user_function key
  else
    c <- get_cache ;;
    match cache_get key c with
    | Some result => set_cache (move_to_end key result c) ;;; ret result
    | None =>
        result <- user_function key ;;
        c' <- get_cache ;;
        set_cache (cache_put maxsize key result c') ;;;
        ret result
    end.

Definition REFUSAL : str := "This prompt is unsafe, can't answer.".
Definition CLASSIFIER_REASON : str := "Ollama classified as unsafe".
Definition NO_RESPONSE : str := "No response generated.".
Definition GENERATION_ERROR : str := "Error generating response.".

Definition UNSAFE_DEFAULT : Dict :=
  [("label", VStr "UNSAFE"); ("score", VFloat 1.0%float)].

(** ** Vocabulary of the statements *)

(** The "status" entry of what a call produced, if it returned. *)
Definition status_of (r : result Dict) : option value :=
  match r with
  | Returned d => lookup "status" d
  | Raised _ => None
  end.

(** The classification the adapter builds for a normalised label. *)
Definition classification (l : str) : Dict :=
  [("label", VStr l);
   ("score", VFloat (if Str.eqb l "UNSAFE" then 1.0%float else 0.0%float))].

(** The blocking test of line 101 on a label and a score. *)
Definition over_threshold (l : str) (c : float) : bool :=
  Str.eqb l "UNSAFE" && PrimFloat.ltb CONFIDENCE_THRESHOLD c.

(** Every cached value is a classification the adapter built. *)
Definition cache_wf (c : Cache) : Prop :=
  Forall (fun entry => exists l, snd entry = classification l) c.

Definition keys (c : Cache) : list str := List.map fst c.

(** Calls of [f] on the texts of a list, one after the other. *)
Fixpoint run_each (f : str -> M Dict) (texts : list str) : M unit :=
  match texts with
  | [] => ret tt
  | text :: rest => f text ;;; run_each f rest
  end.

Fixpoint distinct (l : list str) : bool :=
  match l with
  | [] => true
  | x :: l' => negb (existsb (Str.eqb x) l') && distinct l'
  end.

(** The decimal numerals "0", "1", ..., used as sample texts. *)
Fixpoint digits (u : Decimal.uint) : str :=
  match u with
  | Decimal.Nil => ""
  | Decimal.D0 u' => Ch 48%N (digits u')
  | Decimal.D1 u' => Ch 49%N (digits u')
  | Decimal.D2 u' => Ch 50%N (digits u')
  | Decimal.D3 u' => Ch 51%N (digits u')
  | Decimal.D4 u' => Ch 52%N (digits u')
  | Decimal.D5 u' => Ch 53%N (digits u')
  | Decimal.D6 u' => Ch 54%N (digits u')
  | Decimal.D7 u' => Ch 55%N (digits u')
  | Decimal.D8 u' => Ch 56%N (digits u')
  | Decimal.D9 u' => Ch 57%N (digits u')
  end.

Definition numeral (n : nat) : str := digits (Nat.to_uint n).

(** The texts "0", ..., "n-1". *)
Definition numerals (n : nat) : list str := List.map numeral (seq 0 n).

(** Sample chains. *)
Definition chain_says (reply : str) : nat -> str -> result str :=
  fun _ _ => Returned reply.

Definition chain_down : nat -> str -> result str :=
  fun _ _ => Raised (Exception "connection refused").

Section Firewall.

(** Python's tables, whatever they are. *)
Variable U : Unicode.

(** *** [str.strip] *)

Fixpoint lstrip (s : str) : str :=
  match s with
  | Ch c s' => if isspace U c then lstrip s' else s
  | EmptyStr => EmptyStr
  end.

Fixpoint rstrip (s : str) : str :=
  match s with
  | Ch c s' =>
      match rstrip s' with
      | EmptyStr => if isspace U c then EmptyStr else Ch c EmptyStr
      | r => Ch c r
      end
  | EmptyStr => EmptyStr
  end.

(** [s.strip()]: blanks removed at both ends. *)
Definition strip (s : str) : str := lstrip (rstrip s).

(** *** Matching a compiled pattern *)

(** \w in a pattern over [str]: an alphanumeric code point or the
    underscore. *)
Definition is_word (c : char) : bool := isalnum U c || N.eqb c 95.

Definition item_matches (icase : bool) (i : Re.item) (c : char) : bool :=
  match i with
  | Re.Literal l => if icase then ignorecase_eq U l c else N.eqb c l
  | Re.CategorySpace => isspace U c
  end.

(** \b holds between a word character and a non-word character; the
    two ends of the text count as non-word. *)
Definition at_boundary (prev : option char) (rest : str) : bool :=
  xorb (match prev with Some c => is_word c | None => false end)
       (match rest with Ch c _ => is_word c | EmptyStr => false end).

Fixpoint repeat1 (p : char -> bool) (k : Re.cont) (s : str) : bool :=
  match s with
  | Ch c s' => p c && (repeat1 p k s' || k (Some c) s')
  | EmptyStr => false
  end.

(** Backtracking match of [r] at the head of [s], [prev] being the
    character just before; [k] receives what is left. *)
Fixpoint match_here (icase : bool) (r : Re.regex) (k : Re.cont)
    (prev : option char) (s : str) : bool :=
  match r with
  | Re.Empty => k prev s
  | Re.One i =>
      match s with
      | Ch c s' => item_matches icase i c && k (Some c) s'
      | EmptyStr => false
      end
  | Re.Repeat1 i => repeat1 (item_matches icase i) k s
  | Re.WordBoundary => at_boundary prev s && k prev s
  | Re.Seq r1 r2 =>
      match_here icase r1 (fun p' s' => match_here icase r2 k p' s') prev s
  | Re.Branch r1 r2 =>
      match_here icase r1 k prev s || match_here icase r2 k prev s
  end.

Fixpoint search_from (icase : bool) (r : Re.regex) (prev : option char)
    (s : str) : bool :=
  match_here icase r (fun _ _ => true) prev s ||
  match s with
  | Ch c s' => search_from icase r (Some c) s'
  | EmptyStr => false
  end.

(** Truth value of [p.search(s)]: a match starts somewhere in [s]. *)
Definition search (p : Re.pattern) (s : str) : bool :=
  search_from (Re.ignorecase p) (Re.tree p) None s.

(** *** The rule matcher *)

Definition rule_based_checks (text : str) : option str :=
  let text_lower := lower U text in
  if existsb (fun word => Str.contains word text_lower) BLOCKLIST then
    Some KEYWORD_REASON
  else if search SQL_INJECTION_REGEX text then
    Some INJECTION_REASON
  else None.

(** [classification_chain.invoke] and [response_chain.invoke]: the
    outcome of the n-th invocation (counted from 0) on a text. *)
Variable classification_chain : nat -> str -> result str.
Variable response_chain : nat -> str -> result str.

Definition classification_chain_invoke (text : str) : M str :=
  fun s =>
    (classification_chain (length (classify_calls s)) text,
     mkState (lru s) (text :: classify_calls s) (generate_calls s) (stdout s)).

Definition response_chain_invoke (text : str) : M str :=
  fun s =>
    (response_chain (length (generate_calls s)) text,
     mkState (lru s) (classify_calls s) (text :: generate_calls s) (stdout s)).

(** The function under the decorator (its [__wrapped__]). *)
Definition classify_input_with_ollama__wrapped (text : str) : M Dict :=
  try_except
    (result <- classification_chain_invoke text ;;
     let classification := upper U (strip result) in
     ret [("label", VStr classification);
          ("score", VFloat (if Str.eqb classification "UNSAFE"
                            then 1.0%float else 0.0%float))])
    (fun e =>
       print ("[ERROR] LangChain/Ollama classification failed: "
              ++ str_of_exn e)%str ;;;
       ret UNSAFE_DEFAULT).

Definition classify_input_with_ollama : str -> M Dict :=
  lru_cache CACHE_SIZE classify_input_with_ollama__wrapped.

Definition generate_ollama_response (text : str) : M str :=
  try_except
    (response <- response_chain_invoke text ;;
     ret (Str.or_else (strip response) NO_RESPONSE))
    (fun e =>
       print ("[ERROR] Failed to generate response from LangChain/Ollama: "
              ++ str_of_exn e)%str ;;;
       ret GENERATION_ERROR).

(** Lines 101-113 of [is_input_safe]: what happens once [ai_result]
    is known. *)
Definition decide_and_respond (text : str) (ai_result : Dict) : M Dict :=
  label <- getitem ai_result "label" ;;
  over <- (if py_eq label (VStr "UNSAFE") then
             score <- getitem ai_result "score" ;;
             py_gt score (VFloat CONFIDENCE_THRESHOLD)
           else ret false) ;;
  if over : bool then
    score <- getitem ai_result "score" ;;
    ret [("status", VStr "blocked");
         ("reason", VStr CLASSIFIER_REASON);
         ("score", score);
         ("response", VStr REFUSAL)]
  else
    response <- generate_ollama_response text ;;
    score <- getitem ai_result "score" ;;
    ret [("status", VStr "allowed");
         ("score", score);
         ("response", VStr response)].

Definition is_input_safe (text : str) : M Dict :=
  match rule_based_checks text with
  | Some rule_based_reason =>
      if Str.truthy rule_based_reason then
        ret [("status", VStr "blocked");
             ("reason", VStr rule_based_reason);
             ("score", VNone);
             ("response", VStr REFUSAL)]
      else
        ai_result <- classify_input_with_ollama text ;;
        decide_and_respond text ai_result
  | None =>
      ai_result <- classify_input_with_ollama text ;;
      decide_and_respond text ai_result
  end.

(** ** Properties *)


(** *** The two adapters, equation by equation *)

Lemma wrapped_eq (text : str) (s : State) :
  classify_input_with_ollama__wrapped text s =
  match classification_chain (length (classify_calls s)) text with
  | Returned reply =>
      (Returned (classification (upper U (strip reply))),
       mkState (lru s) (text :: classify_calls s) (generate_calls s) (stdout s))
  | Raised e =>
      (Returned UNSAFE_DEFAULT,
       mkState (lru s) (text :: classify_calls s) (generate_calls s)
         (stdout s ++ [("[ERROR] LangChain/Ollama classification failed: "
                         ++ str_of_exn e)%str]))
  end.
Proof.
  unfold classify_input_with_ollama__wrapped, try_except, bind,
    classification_chain_invoke.
  destruct (classification_chain _ text); reflexivity.
Qed.

Lemma generate_eq (text : str) (s : State) :
  generate_ollama_response text s =
  match response_chain (length (generate_calls s)) text with
  | Returned reply =>
      (Returned (Str.or_else (strip reply) NO_RESPONSE),
       mkState (lru s) (classify_calls s) (text :: generate_calls s) (stdout s))
  | Raised e =>
      (Returned GENERATION_ERROR,
       mkState (lru s) (classify_calls s) (text :: generate_calls s)
         (stdout s ++ [("[ERROR] Failed to generate response from LangChain/Ollama: "
                         ++ str_of_exn e)%str]))
  end.
Proof.
  unfold generate_ollama_response, try_except, bind, response_chain_invoke.
  destruct (response_chain _ text); reflexivity.
Qed.

Lemma generate_returns (text : str) (s : State) :
  exists reply s', generate_ollama_response text s = (Returned reply, s')
    /\ lru s' = lru s
    /\ classify_calls s' = classify_calls s
    /\ generate_calls s' = text :: generate_calls s.
Proof.
  rewrite generate_eq.
  destruct (response_chain _ text); eexists; eexists; repeat split.
Qed.

(** The decision of lines 101-113 on a label and a score. *)
Lemma decide_eq (text l : str) (c : float) (s : State) :
  decide_and_respond text [("label", VStr l); ("score", VFloat c)] s =
  if over_threshold l c then
    (Returned [("status", VStr "blocked");
               ("reason", VStr CLASSIFIER_REASON);
               ("score", VFloat c);
               ("response", VStr REFUSAL)], s)
  else
    match generate_ollama_response text s with
    | (Returned response, s') =>
        (Returned [("status", VStr "allowed");
                   ("score", VFloat c);
                   ("response", VStr response)], s')
    | (Raised e, s') => (Raised e, s')
    end.
Proof.
  unfold decide_and_respond, over_threshold, bind, getitem, py_gt, ret.
  cbn [lookup Str.eqb N.eqb Pos.eqb andb py_eq].
  destruct (Str.eqb l "UNSAFE"); cbn [andb].
  - destruct (PrimFloat.ltb CONFIDENCE_THRESHOLD c); [reflexivity|].
    destruct (generate_ollama_response text s) as [[r|e] s']; reflexivity.
  - destruct (generate_ollama_response text s) as [[r|e] s']; reflexivity.
Qed.

Lemma decide_status (text l : str) (c : float) (s : State) :
  status_of (fst (decide_and_respond text [("label", VStr l); ("score", VFloat c)] s)) =
  Some (VStr (if over_threshold l c then "blocked" else "allowed")).
Proof.
  rewrite decide_eq.
  destruct (over_threshold l c); [reflexivity|].
  destruct (generate_returns text s) as (r & s' & -> & _).
  reflexivity.
Qed.

Lemma evaluate_unmatched (text : str) (s : State) :
  rule_based_checks text = None ->
  is_input_safe text s =
  match classify_input_with_ollama text s with
  | (Returned ai_result, s1) => decide_and_respond text ai_result s1
  | (Raised e, s1) => (Raised e, s1)
  end.
Proof.
  intros H. unfold is_input_safe. rewrite H. reflexivity.
Qed.

(** *** The cache *)

Lemma cache_get_In (key : str) (c : Cache) (v : Dict) :
  cache_get key c = Some v -> In (key, v) c.
Proof.
  induction c as [|[k w] c IH]; simpl; [discriminate|].
  destruct (Str.eqb_spec k key) as [->|_].
  - intros [= ->]. now left.
  - intros H. right. now apply IH.
Qed.

Lemma cache_get_keys (key : str) (c : Cache) :
  cache_get key c = None <-> ~ In key (keys c).
Proof.
  induction c as [|[k w] c IH]; simpl.
  - tauto.
  - destruct (Str.eqb_spec k key) as [->|Hne].
    + split; [discriminate | intros H; exfalso; apply H; now left].
    + rewrite IH. tauto.
Qed.

Lemma cache_remove_In (key : str) (c : Cache) (entry : str * Dict) :
  In entry (cache_remove key c) -> In entry c.
Proof.
  induction c as [|[k w] c IH]; simpl; [tauto|].
  destruct (Str.eqb k key); simpl; intuition.
Qed.

Lemma cache_get_remove (key : str) (c : Cache) :
  cache_get key (cache_remove key c) = None.
Proof.
  induction c as [|[k w] c IH]; simpl; [reflexivity|].
  destruct (Str.eqb k key) eqn:E; [exact IH|].
  simpl. now rewrite E.
Qed.

Lemma cache_get_remove_other (key other : str) (c : Cache) :
  other <> key -> cache_get other (cache_remove key c) = cache_get other c.
Proof.
  intros Hne.
  induction c as [|[k w] c IH]; simpl; [reflexivity|].
  destruct (Str.eqb_spec k key) as [->|Hk].
  - rewrite IH. destruct (Str.eqb_spec key other); congruence.
  - simpl. now rewrite IH.
Qed.

Lemma cache_get_app (key : str) (c1 c2 : Cache) :
  cache_get key (c1 ++ c2) =
  match cache_get key c1 with
  | Some v => Some v
  | None => cache_get key c2
  end.
Proof.
  induction c1 as [|[k w] c1 IH]; simpl; [reflexivity|].
  now destruct (Str.eqb k key).
Qed.

Lemma cache_get_tl_None (key : str) (c : Cache) :
  cache_get key c = None -> cache_get key (tl c) = None.
Proof.
  destruct c as [|[k w] c]; simpl; [trivial|].
  destruct (Str.eqb k key); [discriminate | trivial].
Qed.

Lemma cache_get_last (key : str) (v : Dict) (c : Cache) :
  cache_get key c = None -> cache_get key (c ++ [(key, v)]) = Some v.
Proof.
  intros H. rewrite cache_get_app, H. simpl. now rewrite Str.eqb_refl.
Qed.

Lemma cache_get_move_to_end (key : str) (v : Dict) (c : Cache) :
  cache_get key (move_to_end key v c) = Some v.
Proof.
  unfold move_to_end. apply cache_get_last, cache_get_remove.
Qed.

Lemma cache_get_put (maxsize : nat) (key : str) (v : Dict) (c : Cache) :
  cache_get key c = None -> cache_get key (cache_put maxsize key v c) = Some v.
Proof.
  intros H. unfold cache_put. rewrite H.
  destruct (Nat.leb maxsize (length c)).
  - now apply cache_get_last, cache_get_tl_None.
  - now apply cache_get_last.
Qed.

Lemma cache_wf_move_to_end (key l : str) (c : Cache) :
  cache_wf c -> cache_wf (move_to_end key (classification l) c).
Proof.
  unfold cache_wf, move_to_end. rewrite !Forall_forall.
  intros H entry Hin. apply in_app_or in Hin as [Hin|[<-|[]]].
  - apply H. eapply cache_remove_In, Hin.
  - now exists l.
Qed.

Lemma cache_wf_put (maxsize : nat) (key l : str) (c : Cache) :
  cache_wf c -> cache_wf (cache_put maxsize key (classification l) c).
Proof.
  unfold cache_wf, cache_put. rewrite !Forall_forall. intros H.
  destruct (cache_get key c); [exact H|].
  assert (Htl : forall entry, In entry (tl c) -> In entry c)
    by (destruct c; simpl; auto).
  destruct (Nat.leb maxsize (length c));
    intros entry Hin; apply in_app_or in Hin as [Hin|[<-|[]]];
    auto; now exists l.
Qed.

(** A hit returns the stored value, makes its entry the most recent
    one, and leaves the chain alone. *)
Lemma lru_cache_hit (maxsize : nat) (f : str -> M Dict) (key : str)
    (v : Dict) (s : State) :
  maxsize <> 0 ->
  cache_get key (lru s) = Some v ->
  lru_cache maxsize f key s = (Returned v, with_lru (move_to_end key v (lru s)) s).
Proof.
  intros Hm Hget. unfold lru_cache.
  destruct (Nat.eqb_spec maxsize 0) as [|_]; [contradiction|].
  unfold bind, get_cache, set_cache, ret. now rewrite Hget.
Qed.

(** A miss runs the function and stores what it returned. *)
Lemma lru_cache_miss (maxsize : nat) (f : str -> M Dict) (key : str)
    (v : Dict) (s s' : State) :
  maxsize <> 0 ->
  cache_get key (lru s) = None ->
  f key s = (Returned v, s') ->
  lru_cache maxsize f key s =
  (Returned v, with_lru (cache_put maxsize key v (lru s')) s').
Proof.
  intros Hm Hget Hf. unfold lru_cache.
  destruct (Nat.eqb_spec maxsize 0) as [|_]; [contradiction|].
  unfold bind, get_cache, set_cache, ret. now rewrite Hget, Hf.
Qed.

Lemma CACHE_SIZE_positive : CACHE_SIZE <> 0.
Proof. discriminate. Qed.

(** The undecorated adapter always returns a classification, touches
    neither the cache nor the generator, and invokes its chain once. *)
Lemma wrapped_returns (text : str) (s : State) :
  exists l s',
    classify_input_with_ollama__wrapped text s = (Returned (classification l), s')
    /\ l = match classification_chain (length (classify_calls s)) text with
           | Returned reply => upper U (strip reply)
           | Raised _ => "UNSAFE"
           end
    /\ lru s' = lru s
    /\ classify_calls s' = text :: classify_calls s
    /\ generate_calls s' = generate_calls s.
Proof.
  rewrite wrapped_eq.
  destruct (classification_chain _ text) as [reply|e].
  - exists (upper U (strip reply)). eexists. repeat split.
  - exists "UNSAFE". eexists. repeat split.
Qed.

(** What a call of the memoised adapter does, hit or miss, with a
    cache of any positive capacity. *)
Lemma lru_cache_wrapped (maxsize : nat) (text : str) (s : State) :
  maxsize <> 0 ->
  cache_wf (lru s) ->
  exists l s',
    lru_cache maxsize classify_input_with_ollama__wrapped text s =
      (Returned (classification l), s')
    /\ cache_wf (lru s')
    /\ cache_get text (lru s') = Some (classification l)
    /\ generate_calls s' = generate_calls s
    /\ (cache_get text (lru s) = Some (classification l)
        /\ lru s' = move_to_end text (classification l) (lru s)
        /\ classify_calls s' = classify_calls s
        \/
        cache_get text (lru s) = None
        /\ lru s' = cache_put maxsize text (classification l) (lru s)
        /\ classify_calls s' = text :: classify_calls s
        /\ l = match classification_chain (length (classify_calls s)) text with
               | Returned reply => upper U (strip reply)
               | Raised _ => "UNSAFE"
               end).
Proof.
  intros Hm Hwf.
  destruct (cache_get text (lru s)) as [v|] eqn:Hget.
  - assert (Hv : exists l, v = classification l).
    { apply cache_get_In in Hget. unfold cache_wf in Hwf.
      rewrite Forall_forall in Hwf. exact (Hwf _ Hget). }
    destruct Hv as [l ->].
    exists l. eexists. split; [now apply lru_cache_hit|]. simpl.
    repeat split.
    + now apply cache_wf_move_to_end.
    + apply cache_get_move_to_end.
    + left. repeat split.
  - destruct (wrapped_returns text s) as (l & s1 & Hrun & Hl & Hlru & Hcalls & Hgen).
    exists l. eexists. split; [now apply (lru_cache_miss _ _ _ _ _ s1)|]. simpl.
    rewrite Hlru. repeat split.
    + now apply cache_wf_put.
    + now apply cache_get_put.
    + exact Hgen.
    + right. repeat split; assumption.
Qed.

(** *** The orchestrator *)

Lemma rule_based_checks_cases (text : str) :
  rule_based_checks text =
  if existsb (fun word => Str.contains word (lower U text)) BLOCKLIST
  then Some KEYWORD_REASON
  else if search SQL_INJECTION_REGEX text then Some INJECTION_REASON
  else None.
Proof. reflexivity. Qed.

(** A rule match ends the call at once: nothing is run, nothing is
    stored. *)
Lemma evaluate_matched (text reason : str) (s : State) :
  rule_based_checks text = Some reason ->
  is_input_safe text s =
  (Returned [("status", VStr "blocked");
             ("reason", VStr reason);
             ("score", VNone);
             ("response", VStr REFUSAL)], s)
  /\ reason <> "".
Proof.
  intros H. unfold is_input_safe. rewrite H.
  rewrite rule_based_checks_cases in H.
  destruct (existsb _ BLOCKLIST); [|destruct (search _ _)];
    inversion H; subst; split; (reflexivity || discriminate).
Qed.

(** Whatever [ai_result] is, lines 101-113 never invoke the
    classification chain. *)
Lemma decide_classify_calls (text : str) (d : Dict) (s : State) :
  classify_calls (snd (decide_and_respond text d s)) = classify_calls s.
Proof.
  assert (Hgen : forall k : str -> M Dict,
             (forall r s', classify_calls (snd (k r s')) = classify_calls s') ->
             classify_calls (snd (bind (generate_ollama_response text) k s))
             = classify_calls s).
  { intros k Hk. unfold bind.
    destruct (generate_returns text s) as (r & s' & -> & _ & Hc & _).
    now rewrite Hk. }
  assert (Hscore : forall (k : value -> Dict) s',
             classify_calls (snd (bind (getitem d "score")
                                    (fun score => ret (k score)) s'))
             = classify_calls s').
  { intros k s'. unfold bind, getitem, ret, raise.
    now destruct (lookup "score" d). }
  unfold decide_and_respond.
  unfold bind at 1. unfold getitem at 1.
  destruct (lookup "label" d) as [label|]; [|reflexivity].
  unfold ret at 1. unfold bind at 1.
  destruct (py_eq label (VStr "UNSAFE")).
  - unfold bind at 1. unfold getitem at 1.
    destruct (lookup "score" d) as [score|] eqn:Hs; [|reflexivity].
    unfold ret at 1. unfold py_gt.
    destruct score; try reflexivity.
    unfold ret at 1.
    destruct (PrimFloat.ltb CONFIDENCE_THRESHOLD f).
    + apply Hscore.
    + apply Hgen. intros r s'. apply Hscore.
  - unfold ret at 1. apply Hgen. intros r s'. apply Hscore.
Qed.

(** C2: a text whose lower-cased form contains a blocklisted term is
    blocked with the keyword reason and a score of None, whatever the
    chains and the state are; the state comes back unchanged, so the
    classification chain was not invoked and the cache was not
    written. *)
Theorem keyword_blocks_before_classifier (text : str) (s : State) :
  existsb (fun word => Str.contains word (lower U text)) BLOCKLIST = true ->
  is_input_safe text s =
  (Returned [("status", VStr "blocked");
             ("reason", VStr "Blocked due to prohibited keyword.");
             ("score", VNone);
             ("response", VStr "This prompt is unsafe, can't answer.")], s)
  /\ classify_calls (snd (is_input_safe text s)) = classify_calls s
  /\ lru (snd (is_input_safe text s)) = lru s
  /\ generate_calls (snd (is_input_safe text s)) = generate_calls s.
Proof.
  intros H.
  assert (Hrule : rule_based_checks text = Some KEYWORD_REASON).
  { rewrite rule_based_checks_cases. now rewrite H. }
  destruct (evaluate_matched text _ s Hrule) as [Heq _].
  rewrite Heq. split; [reflexivity|]. split; [reflexivity|].
  split; reflexivity.
Qed.

(** C9, amended: a text that matches the SQL-injection pattern and
    whose lower-cased form contains no blocklisted term is blocked with
    the injection reason, and nothing else is run; when a blocklisted
    term is there as well, the reason is the keyword reason. *)
Theorem injection_blocks_when_no_keyword (text : str) (s : State) :
  existsb (fun word => Str.contains word (lower U text)) BLOCKLIST = false ->
  search SQL_INJECTION_REGEX text = true ->
  is_input_safe text s =
  (Returned [("status", VStr "blocked");
             ("reason", VStr "SQL injection attempt detected.");
             ("score", VNone);
             ("response", VStr "This prompt is unsafe, can't answer.")], s)
  /\ (forall (text' : str) (s' : State),
        search SQL_INJECTION_REGEX text' = true ->
        existsb (fun word => Str.contains word (lower U text')) BLOCKLIST = true ->
        is_input_safe text' s' =
        (Returned [("status", VStr "blocked");
                   ("reason", VStr "Blocked due to prohibited keyword.");
                   ("score", VNone);
                   ("response", VStr "This prompt is unsafe, can't answer.")],
         s')).
Proof.
  intros Hkw Hsql. split.
  - assert (Hrule : rule_based_checks text = Some INJECTION_REASON).
    { rewrite rule_based_checks_cases. now rewrite Hkw, Hsql. }
    now destruct (evaluate_matched text _ s Hrule) as [-> _].
  - intros text' s' _ Hkw'.
    assert (Hrule : rule_based_checks text' = Some KEYWORD_REASON).
    { rewrite rule_based_checks_cases. now rewrite Hkw'. }
    now destruct (evaluate_matched text' _ s' Hrule) as [-> _].
Qed.

(** C5, amended: a reply of the classification chain is trimmed and
    upper-cased; the label of the result is that normalised reply
    itself, and the score is 1.0 when it is UNSAFE and 0.0 otherwise.
    The label is SAFE only when the reply normalises to SAFE. *)
Theorem reply_is_normalised_into_label (text reply : str) (s : State) :
  classification_chain (length (classify_calls s)) text = Returned reply ->
  fst (classify_input_with_ollama__wrapped text s) =
    Returned [("label", VStr (upper U (strip reply)));
              ("score", VFloat (if Str.eqb (upper U (strip reply)) "UNSAFE"
                                then 1.0%float else 0.0%float))]
  /\ (upper U (strip reply) = "UNSAFE" ->
      fst (classify_input_with_ollama__wrapped text s) =
        Returned [("label", VStr "UNSAFE"); ("score", VFloat 1.0%float)])
  /\ (upper U (strip reply) <> "UNSAFE" ->
      fst (classify_input_with_ollama__wrapped text s) =
        Returned [("label", VStr (upper U (strip reply)));
                  ("score", VFloat 0.0%float)]).
Proof.
  intros Hreply. rewrite wrapped_eq, Hreply. cbn [fst]. unfold classification.
  repeat split.
  - intros ->. reflexivity.
  - intros Hne. apply Str.eqb_neq in Hne. now rewrite Hne.
Qed.

(** C3: with no rule match, the verdict is "blocked" exactly when the
    label is UNSAFE and the score is strictly above 0.8: this holds of
    the decision step on any label and score, and of [is_input_safe] on
    the classification its adapter returned. A score of 0.81 blocks, a
    score of 0.80 does not. *)
Theorem threshold_is_strict (text l : str) (c : float) (s s1 : State) :
  rule_based_checks text = None ->
  classify_input_with_ollama text s =
    (Returned [("label", VStr l); ("score", VFloat c)], s1) ->
  status_of (fst (is_input_safe text s)) =
    Some (VStr (if Str.eqb l "UNSAFE" && PrimFloat.ltb 0.8%float c
                then "blocked" else "allowed"))
  /\ (forall (l' : str) (c' : float) (s' : State),
        status_of (fst (decide_and_respond text
                          [("label", VStr l'); ("score", VFloat c')] s')) =
        Some (VStr (if Str.eqb l' "UNSAFE" && PrimFloat.ltb 0.8%float c'
                    then "blocked" else "allowed")))
  /\ (forall s' : State,
        status_of (fst (decide_and_respond text
                          [("label", VStr "UNSAFE"); ("score", VFloat 0.81%float)] s'))
        = Some (VStr "blocked"))
  /\ (forall s' : State,
        status_of (fst (decide_and_respond text
                          [("label", VStr "UNSAFE"); ("score", VFloat 0.80%float)] s'))
        = Some (VStr "allowed")).
Proof.
  intros Hrule Hclassify. split; [|split; [|split]].
  - rewrite (evaluate_unmatched text s Hrule), Hclassify. apply decide_status.
  - intros. apply decide_status.
  - intros. now rewrite decide_status.
  - intros. now rewrite decide_status.
Qed.


(** The memoised adapter at the capacity of the source. *)
Lemma classify_cases (text : str) (s : State) :
  cache_wf (lru s) ->
  exists l s',
    classify_input_with_ollama text s = (Returned (classification l), s')
    /\ cache_wf (lru s')
    /\ cache_get text (lru s') = Some (classification l)
    /\ generate_calls s' = generate_calls s
    /\ (cache_get text (lru s) = Some (classification l)
        /\ lru s' = move_to_end text (classification l) (lru s)
        /\ classify_calls s' = classify_calls s
        \/
        cache_get text (lru s) = None
        /\ lru s' = cache_put CACHE_SIZE text (classification l) (lru s)
        /\ classify_calls s' = text :: classify_calls s
        /\ l = match classification_chain (length (classify_calls s)) text with
               | Returned reply => upper U (strip reply)
               | Raised _ => "UNSAFE"
               end).
Proof.
  intros Hwf. apply lru_cache_wrapped; [apply CACHE_SIZE_positive | exact Hwf].
Qed.

Lemma over_threshold_classification (l : str) :
  over_threshold l (if Str.eqb l "UNSAFE" then 1.0%float else 0.0%float)
  = Str.eqb l "UNSAFE".
Proof.
  unfold over_threshold. now destruct (Str.eqb l "UNSAFE").
Qed.

(** C1: when the invocation of the classification chain raises, the
    adapter returns label UNSAFE with score 1.0, under the decorator as
    well when the text is not cached; and a call of [is_input_safe]
    that reached the chain returns the "blocked" verdict with score 1.0
    without running the generator. In each case a value is returned,
    nothing is raised. *)
Theorem classifier_failure_fails_closed (text : str) (s : State) (e : exn) :
  classification_chain (length (classify_calls s)) text = Raised e ->
  fst (classify_input_with_ollama__wrapped text s) =
    Returned [("label", VStr "UNSAFE"); ("score", VFloat 1.0%float)]
  /\ (cache_get text (lru s) = None ->
      fst (classify_input_with_ollama text s) =
        Returned [("label", VStr "UNSAFE"); ("score", VFloat 1.0%float)])
  /\ (classify_calls (snd (is_input_safe text s)) <> classify_calls s ->
      fst (is_input_safe text s) =
        Returned [("status", VStr "blocked");
                  ("reason", VStr "Ollama classified as unsafe");
                  ("score", VFloat 1.0%float);
                  ("response", VStr "This prompt is unsafe, can't answer.")]
      /\ generate_calls (snd (is_input_safe text s)) = generate_calls s).
Proof.
  intros Hdown.
  assert (Hwrapped : classify_input_with_ollama__wrapped text s =
            (Returned UNSAFE_DEFAULT,
             mkState (lru s) (text :: classify_calls s) (generate_calls s)
               (stdout s ++ [("[ERROR] LangChain/Ollama classification failed: "
                               ++ str_of_exn e)%str])))
    by now rewrite wrapped_eq, Hdown.
  split; [now rewrite Hwrapped|].
  split.
  - intros Hmiss. unfold classify_input_with_ollama.
    now rewrite (lru_cache_miss _ _ _ _ _ _ CACHE_SIZE_positive Hmiss Hwrapped).
  - intros Hinvoked.
    destruct (rule_based_checks text) as [reason|] eqn:Hrule.
    + destruct (evaluate_matched text reason s Hrule) as [Heq _].
      rewrite Heq in Hinvoked. now contradiction Hinvoked.
    + rewrite (evaluate_unmatched text s Hrule) in *.
      unfold classify_input_with_ollama in *.
      destruct (cache_get text (lru s)) as [v|] eqn:Hget.
      * rewrite (lru_cache_hit _ _ _ _ _ CACHE_SIZE_positive Hget) in Hinvoked.
        rewrite decide_classify_calls in Hinvoked.
        now contradiction Hinvoked.
      * rewrite (lru_cache_miss _ _ _ _ _ _ CACHE_SIZE_positive Hget Hwrapped).
        unfold UNSAFE_DEFAULT. rewrite decide_eq.
        change (over_threshold "UNSAFE" 1.0%float) with true.
        split; reflexivity.
Qed.


(** C6: from a cache of adapter results every call returns a verdict,
    and the verdict is of one of two shapes. Blocked: the response is
    the fixed refusal, a non-empty reason is present, and the
    generation chain was not invoked. Allowed: there is no reason
    entry, and the response is what [generate_ollama_response]
    returned for the text, called once after the classification. *)
Theorem verdict_shape (text : str) (s : State) :
  cache_wf (lru s) ->
  exists (d : Dict) (s' : State),
    is_input_safe text s = (Returned d, s')
    /\ (lookup "status" d = Some (VStr "blocked")
        /\ lookup "response" d = Some (VStr "This prompt is unsafe, can't answer.")
        /\ (exists reason, lookup "reason" d = Some (VStr reason) /\ reason <> "")
        /\ generate_calls s' = generate_calls s
        \/
        lookup "status" d = Some (VStr "allowed")
        /\ lookup "reason" d = None
        /\ (exists reply,
              generate_ollama_response text (snd (classify_input_with_ollama text s))
                = (Returned reply, s')
              /\ lookup "response" d = Some (VStr reply))
        /\ generate_calls s' = text :: generate_calls s).
Proof.
  intros Hwf.
  destruct (rule_based_checks text) as [reason|] eqn:Hrule.
  - destruct (evaluate_matched text reason s Hrule) as [Heq Hne].
    rewrite Heq. eexists; eexists. split; [reflexivity|].
    left. repeat split. now exists reason.
  - rewrite (evaluate_unmatched text s Hrule).
    destruct (classify_cases text s Hwf) as (l & s1 & Hrun & _ & _ & Hgen & _).
    rewrite Hrun. unfold classification. rewrite decide_eq. cbn [snd].
    destruct (over_threshold l _).
    + eexists; eexists. split; [reflexivity|].
      left. repeat split; [|exact Hgen].
      exists CLASSIFIER_REASON. split; [reflexivity | discriminate].
    + destruct (generate_returns text s1) as (reply & s2 & Hreply & _ & _ & Hcalls).
      rewrite Hreply. eexists; eexists. split; [reflexivity|].
      right. repeat split.
      * now exists reply.
      * now rewrite Hcalls, Hgen.
Qed.

(** *** Repeated texts and eviction *)

Lemma cache_get_move_to_end_other (key other : str) (v : Dict) (c : Cache) :
  other <> key ->
  cache_get other (move_to_end key v c) = cache_get other c.
Proof.
  intros Hne. unfold move_to_end.
  rewrite cache_get_app, (cache_get_remove_other _ _ _ Hne). simpl.
  destruct (Str.eqb_spec key other) as [Heq|_]; [congruence|].
  now destruct (cache_get other c).
Qed.

Lemma cache_get_put_other (maxsize : nat) (key other : str) (v : Dict) (c : Cache) :
  other <> key ->
  cache_get other c = None ->
  cache_get other (cache_put maxsize key v c) = None.
Proof.
  intros Hne Hnone. unfold cache_put.
  destruct (cache_get key c); [exact Hnone|].
  assert (Hlast : cache_get other [(key, v)] = None).
  { simpl. destruct (Str.eqb_spec key other); congruence. }
  destruct (Nat.leb maxsize (length c)); rewrite cache_get_app.
  - now rewrite (cache_get_tl_None _ _ Hnone).
  - now rewrite Hnone.
Qed.

(** The decision step returns a verdict and leaves the cache and the
    record of classification calls as they were. *)
Lemma decide_returns (text l : str) (c : float) (s : State) :
  exists d s',
    decide_and_respond text [("label", VStr l); ("score", VFloat c)] s
      = (Returned d, s')
    /\ lru s' = lru s
    /\ classify_calls s' = classify_calls s
    /\ lookup "status" d
       = Some (VStr (if over_threshold l c then "blocked" else "allowed"))
    /\ lookup "score" d = Some (VFloat c).
Proof.
  rewrite decide_eq. destruct (over_threshold l c).
  - eexists; eexists. repeat split.
  - destruct (generate_returns text s) as (r & s' & -> & Hlru & Hcalls & _).
    eexists; eexists. repeat split; assumption.
Qed.

(** An unmatched text goes through the memoised adapter and then the
    decision step. *)
Lemma evaluate_unmatched_returns (text : str) (s : State) :
  rule_based_checks text = None ->
  cache_wf (lru s) ->
  exists l s1 d s',
    classify_input_with_ollama text s = (Returned (classification l), s1)
    /\ is_input_safe text s = (Returned d, s')
    /\ lru s' = lru s1
    /\ classify_calls s' = classify_calls s1
    /\ lookup "status" d
       = Some (VStr (if Str.eqb l "UNSAFE" then "blocked" else "allowed"))
    /\ lookup "score" d
       = Some (VFloat (if Str.eqb l "UNSAFE" then 1.0%float else 0.0%float)).
Proof.
  intros Hrule Hwf.
  destruct (classify_cases text s Hwf) as (l & s1 & Hrun & _).
  rewrite (evaluate_unmatched text s Hrule), Hrun. unfold classification at 2.
  destruct (decide_returns text l
              (if Str.eqb l "UNSAFE" then 1.0%float else 0.0%float) s1)
    as (d & s' & Hd & Hlru & Hcalls & Hstatus & Hscore).
  rewrite over_threshold_classification in Hstatus.
  exists l, s1, d, s'. repeat split; assumption.
Qed.

(** The cache holds only results of the adapter, and every call keeps
    it so. *)
Lemma is_input_safe_keeps_cache_wf (text : str) (s : State) :
  cache_wf (lru s) -> cache_wf (lru (snd (is_input_safe text s))).
Proof.
  intros Hwf.
  destruct (rule_based_checks text) as [reason|] eqn:Hrule.
  - now destruct (evaluate_matched text reason s Hrule) as [-> _].
  - destruct (classify_cases text s Hwf) as (l & s1 & Hrun & Hwf1 & _).
    destruct (evaluate_unmatched_returns text s Hrule Hwf)
      as (l0 & s1' & d & s' & Hrun0 & -> & Hlru & _).
    rewrite Hrun in Hrun0.
    assert (Hs : s1' = s1) by (now injection Hrun0). subst s1'.
    cbn [snd]. now rewrite Hlru.
Qed.

Lemma classification_inj (l l' : str) :
  classification l = classification l' -> l = l'.
Proof. unfold classification. intros H. now inversion H. Qed.

Lemma same_run (l l' : str) (s s' : State) (r : result Dict * State) :
  r = (Returned (classification l), s) ->
  r = (Returned (classification l'), s') ->
  l' = l /\ s' = s.
Proof.
  intros -> H.
  assert (Hfst := f_equal (fun p => match fst p with
                                    | Returned d => d
                                    | Raised _ => []
                                    end) H).
  assert (Hsnd := f_equal snd H).
  cbn [fst snd] in Hfst, Hsnd. split; [|now symmetry].
  symmetry. now apply classification_inj.
Qed.

(** C8: after a call of [is_input_safe] on an unmatched text, a second
    call on the same text does not invoke the classification chain,
    the adapter hands it the result it handed the first call, and the
    two verdicts carry the same status and score. The cache is keyed by
    the text as given: a call on any other text that was not cached
    invokes the chain, however close the two texts are. *)
Theorem repeated_text_is_served_from_cache (text : str) (s : State) :
  rule_based_checks text = None ->
  cache_wf (lru s) ->
  classify_calls (snd (is_input_safe text (snd (is_input_safe text s))))
    = classify_calls (snd (is_input_safe text s))
  /\ fst (classify_input_with_ollama text (snd (is_input_safe text s)))
     = fst (classify_input_with_ollama text s)
  /\ status_of (fst (is_input_safe text (snd (is_input_safe text s))))
     = status_of (fst (is_input_safe text s))
  /\ (forall other : str,
        other <> text ->
        rule_based_checks other = None ->
        cache_get other (lru s) = None ->
        classify_calls (snd (is_input_safe other (snd (is_input_safe text s))))
          = other :: classify_calls (snd (is_input_safe text s))).
Proof.
  intros Hrule Hwf.
  destruct (classify_cases text s Hwf)
    as (l & s1 & Hrun & Hwf1 & Hget1 & _ & Hcase).
  destruct (evaluate_unmatched_returns text s Hrule Hwf)
    as (l0 & s1' & d & s' & Hrun0 & Heval & Hlru & Hcalls & Hstatus & _).
  destruct (same_run _ _ _ _ _ Hrun Hrun0) as [-> ->].
  rewrite Heval. cbn [fst snd].
  assert (Hwf' : cache_wf (lru s')) by now rewrite Hlru.
  assert (Hget' : cache_get text (lru s') = Some (classification l))
    by now rewrite Hlru.
  destruct (classify_cases text s' Hwf')
    as (l2 & s2 & Hrun2 & _ & _ & _ & Hcase2).
  destruct Hcase2 as [(Hhit & _ & Hcalls2) | (Hmiss & _)];
    [|rewrite Hmiss in Hget'; discriminate].
  rewrite Hget' in Hhit.
  assert (l2 = l)
    by (symmetry; apply classification_inj;
        exact (f_equal (fun o => match o with Some d => d | None => [] end) Hhit)).
  subst l2.
  destruct (evaluate_unmatched_returns text s' Hrule Hwf')
    as (l3 & s3 & d' & s'' & Hrun3 & Heval' & _ & Hcalls' & Hstatus' & _).
  destruct (same_run _ _ _ _ _ Hrun2 Hrun3) as [-> ->].
  split; [|split; [|split]].
  - rewrite Heval'. cbn [snd]. now rewrite Hcalls', Hcalls2.
  - now rewrite Hrun2, Hrun.
  - rewrite Heval'. cbn [fst status_of]. now rewrite Hstatus, Hstatus'.
  - intros other Hne Hrule' Hfresh.
    assert (Hfresh' : cache_get other (lru s') = None).
    { rewrite Hlru.
      destruct Hcase as [(_ & -> & _) | (_ & -> & _)].
      - now rewrite cache_get_move_to_end_other.
      - now apply cache_get_put_other. }
    destruct (classify_cases other s' Hwf')
      as (lo & so & Hruno & _ & _ & _ & Hcaseo).
    destruct Hcaseo as [(Hhito & _) | (_ & _ & Hcallso & _)];
      [rewrite Hfresh' in Hhito; discriminate|].
    destruct (evaluate_unmatched_returns other s' Hrule' Hwf')
      as (l4 & s4 & d4 & s4' & Hrun4 & Heval4 & _ & Hcalls4 & _).
    destruct (same_run _ _ _ _ _ Hruno Hrun4) as [-> ->].
    rewrite Heval4. cbn [snd]. now rewrite Hcalls4, Hcallso.
Qed.

Lemma keys_cache_remove (key : str) (c : Cache) :
  keys (cache_remove key c) = filter (fun k => negb (Str.eqb k key)) (keys c).
Proof.
  induction c as [|[k w] c IH]; simpl; [reflexivity|].
  destruct (Str.eqb k key); simpl; now rewrite IH.
Qed.

Lemma keys_app (c1 c2 : Cache) : keys (c1 ++ c2) = keys c1 ++ keys c2.
Proof. apply map_app. Qed.

Lemma keys_tl (c : Cache) : keys (tl c) = tl (keys c).
Proof. now destruct c. Qed.

Lemma distinct_cons (t : str) (rest : list str) :
  distinct (t :: rest) = true ->
  distinct rest = true /\ forall u, In u rest -> u <> t.
Proof.
  simpl. intros H. apply andb_prop in H as [Hhead Hrest].
  split; [exact Hrest|].
  intros u Hin ->. apply negb_true_iff in Hhead.
  assert (Hex : existsb (Str.eqb t) rest = true).
  { apply existsb_exists. exists t. split; [exact Hin | apply Str.eqb_refl]. }
  congruence.
Qed.

(** One miss of the memoised adapter, at any positive capacity. *)
Lemma miss_step (maxsize : nat) (text : str) (s : State) :
  maxsize <> 0 ->
  cache_get text (lru s) = None ->
  exists v s',
    lru_cache maxsize classify_input_with_ollama__wrapped text s = (Returned v, s')
    /\ lru s' = (if Nat.leb maxsize (length (lru s))
                 then tl (lru s) ++ [(text, v)]
                 else lru s ++ [(text, v)])
    /\ classify_calls s' = text :: classify_calls s.
Proof.
  intros Hm Hmiss.
  destruct (wrapped_returns text s) as (l & s1 & Hrun & _ & Hlru & Hcalls & _).
  exists (classification l). eexists.
  split; [exact (lru_cache_miss _ _ _ _ _ _ Hm Hmiss Hrun)|].
  cbn [lru classify_calls with_lru]. rewrite Hlru.
  split; [|exact Hcalls].
  unfold cache_put. now rewrite Hmiss.
Qed.

(** Calls on texts that are pairwise distinct and not yet cached: the
    cache ends up holding the last [maxsize] of its old keys followed
    by the new texts, in that order. *)
Lemma run_each_fresh (maxsize : nat) (texts : list str) :
  maxsize <> 0 ->
  forall s : State,
    length (lru s) <= maxsize ->
    distinct texts = true ->
    (forall t, In t texts -> cache_get t (lru s) = None) ->
    exists s',
      run_each (lru_cache maxsize classify_input_with_ollama__wrapped) texts s
        = (Returned tt, s')
      /\ keys (lru s')
         = skipn (length (lru s) + length texts - maxsize) (keys (lru s) ++ texts).
Proof.
  intros Hm.
  induction texts as [|t rest IH]; intros s Hlen Hdistinct Hfresh.
  - exists s. split; [reflexivity|].
    replace (length (lru s) + length (@nil str) - maxsize) with 0
      by (simpl; lia).
    now rewrite app_nil_r.
  - apply distinct_cons in Hdistinct as [Hrest Hne].
    destruct (miss_step maxsize t s Hm (Hfresh t (or_introl eq_refl)))
      as (v & s1 & Hrun & Hlru & _).
    assert (Hlen1 : length (lru s1) <= maxsize).
    { rewrite Hlru. destruct (Nat.leb_spec maxsize (length (lru s))).
      - rewrite length_app. destruct (lru s); simpl in *; lia.
      - rewrite length_app. simpl. lia. }
    assert (Hfresh1 : forall u, In u rest -> cache_get u (lru s1) = None).
    { intros u Hin.
      assert (Hu : cache_get u (lru s) = None) by (apply Hfresh; now right).
      assert (Hput : lru s1 = cache_put maxsize t v (lru s)).
      { rewrite Hlru. unfold cache_put.
        now rewrite (Hfresh t (or_introl eq_refl)). }
      rewrite Hput. apply cache_get_put_other; [now apply Hne | exact Hu]. }
    destruct (IH s1 Hlen1 Hrest Hfresh1) as (s' & Hrun' & Hkeys).
    exists s'. split.
    + simpl. unfold bind. now rewrite Hrun.
    + rewrite Hkeys, Hlru.
      destruct (Nat.leb_spec maxsize (length (lru s))) as [Hfull|Hroom].
      * assert (Hexact : length (lru s) = maxsize) by lia.
        destruct (lru s) as [|[k0 w0] c] eqn:Hc; [simpl in Hexact; lia|].
        cbn [tl]. rewrite !keys_app, length_app. cbn [keys List.map fst length].
        rewrite <- app_assoc. cbn [app].
        replace (length c + 1 + length rest - maxsize) with (length rest)
          by (simpl in Hexact; lia).
        replace (S (length c) + S (length rest) - maxsize) with (S (length rest))
          by (simpl in Hexact; lia).
        reflexivity.
      * rewrite keys_app, length_app. cbn [keys List.map fst length].
        rewrite <- app_assoc. cbn [app].
        replace (length (lru s) + 1 + length rest - maxsize)
          with (length (lru s) + S (length rest) - maxsize) by lia.
        reflexivity.
Qed.

(** The order of the keys after one call: a hit moves the key to the
    most recent place, a miss appends it, dropping the least recently
    used key when the cache is full. *)
Lemma recency_after_call (maxsize : nat) (text : str) (s : State) :
  maxsize <> 0 ->
  keys (lru (snd (lru_cache maxsize classify_input_with_ollama__wrapped text s))) =
  match cache_get text (lru s) with
  | Some _ => filter (fun k => negb (Str.eqb k text)) (keys (lru s)) ++ [text]
  | None =>
      if Nat.leb maxsize (length (lru s))
      then tl (keys (lru s)) ++ [text]
      else keys (lru s) ++ [text]
  end.
Proof.
  intros Hm.
  destruct (cache_get text (lru s)) as [v|] eqn:Hget.
  - rewrite (lru_cache_hit _ _ _ _ _ Hm Hget). cbn [snd lru with_lru].
    unfold move_to_end. now rewrite keys_app, keys_cache_remove.
  - destruct (miss_step maxsize text s Hm Hget) as (v & s' & Hrun & Hlru & _).
    rewrite Hrun. cbn [snd]. rewrite Hlru.
    destruct (Nat.leb maxsize (length (lru s)));
      now rewrite keys_app, ?keys_tl.
Qed.

Lemma length_cache_remove (key : str) (c : Cache) :
  length (cache_remove key c) <= length c.
Proof.
  induction c as [|[k w] c IH]; simpl; [lia|].
  destruct (Str.eqb k key); simpl; lia.
Qed.

Lemma length_cache_remove_hit (key : str) (c : Cache) (v : Dict) :
  cache_get key c = Some v -> S (length (cache_remove key c)) <= length c.
Proof.
  induction c as [|[k w] c IH]; simpl; [discriminate|].
  destruct (Str.eqb k key).
  - intros _. pose proof (length_cache_remove key c). lia.
  - intros H. apply IH in H. simpl. lia.
Qed.

(** The cache never holds more than its capacity. *)
Lemma lru_cache_keeps_capacity (maxsize : nat) (text : str) (s : State) :
  maxsize <> 0 ->
  length (lru s) <= maxsize ->
  length (lru (snd (lru_cache maxsize classify_input_with_ollama__wrapped text s)))
    <= maxsize.
Proof.
  intros Hm Hlen.
  destruct (cache_get text (lru s)) as [v|] eqn:Hget.
  - rewrite (lru_cache_hit _ _ _ _ _ Hm Hget).
    cbn [snd lru with_lru]. unfold move_to_end. rewrite length_app.
    pose proof (length_cache_remove_hit _ _ _ Hget). simpl. lia.
  - destruct (miss_step maxsize text s Hm Hget) as (v & s' & Hrun & Hlru & _).
    rewrite Hrun. cbn [snd]. rewrite Hlru.
    destruct (Nat.leb_spec maxsize (length (lru s))); rewrite length_app.
    + destruct (lru s) as [|entry c]; cbn [tl length] in *; lia.
    + cbn [length]. lia.
Qed.

(** C4, amended: the cache keeps its entries in order of last use. A
    hit moves the entry to the most recent place; a miss stores a new
    entry there, and when the cache already holds [maxsize] entries it
    first drops the least recently used one. So eviction follows
    access order. When [maxsize + 1] distinct texts are classified from
    an empty cache, with no call in between on a text already seen,
    exactly the first text is evicted: the cache holds the others, and
    a later call on the first text invokes the chain again. This holds
    at every positive capacity, 1000 included. *)
Theorem eviction_is_least_recently_used (maxsize : nat) (texts : list str)
    (s : State) :
  maxsize <> 0 ->
  lru s = [] ->
  distinct texts = true ->
  length texts = S maxsize ->
  (exists s',
      run_each (lru_cache maxsize classify_input_with_ollama__wrapped) texts s
        = (Returned tt, s')
      /\ keys (lru s') = tl texts
      /\ cache_get (hd "" texts) (lru s') = None
      /\ (forall t, In t (tl texts) -> cache_get t (lru s') <> None)
      /\ classify_calls
           (snd (lru_cache maxsize classify_input_with_ollama__wrapped
                   (hd "" texts) s'))
         = hd "" texts :: classify_calls s')
  /\ (forall (text : str) (s0 : State),
        keys (lru (snd (lru_cache maxsize classify_input_with_ollama__wrapped
                          text s0))) =
        match cache_get text (lru s0) with
        | Some _ =>
            filter (fun k => negb (Str.eqb k text)) (keys (lru s0)) ++ [text]
        | None =>
            if Nat.leb maxsize (length (lru s0))
            then tl (keys (lru s0)) ++ [text]
            else keys (lru s0) ++ [text]
        end).
Proof.
  intros Hm Hempty Hdistinct Hlen.
  split; [|intros text s0; now apply recency_after_call].
  destruct (run_each_fresh maxsize texts Hm s) as (s' & Hrun & Hkeys).
  - rewrite Hempty. simpl. lia.
  - exact Hdistinct.
  - intros t _. now rewrite Hempty.
  - rewrite Hempty, Hlen in Hkeys. cbn [length keys List.map app] in Hkeys.
    replace (0 + S maxsize - maxsize) with 1 in Hkeys by lia.
    destruct texts as [|first others]; [discriminate Hlen|].
    cbn [skipn tl hd] in *.
    apply distinct_cons in Hdistinct as [_ Hne].
    assert (Hgone : cache_get first (lru s') = None).
    { apply cache_get_keys. rewrite Hkeys. intros Hin.
      now apply (Hne first Hin). }
    exists s'. repeat split; try assumption.
    + intros t Hin Hnone. apply cache_get_keys in Hnone.
      apply Hnone. now rewrite Hkeys.
    + destruct (miss_step maxsize first s' Hm Hgone) as (v & s2 & -> & _ & Hcalls).
      exact Hcalls.
Qed.

(** ** Further properties of the backend *)

(** *** Pieces of a text *)

Fixpoint last_char (prev : option char) (s : str) : option char :=
  match s with
  | EmptyStr => prev
  | Ch c s' => last_char (Some c) s'
  end.

Fixpoint all_chars (p : char -> bool) (s : str) : bool :=
  match s with
  | EmptyStr => true
  | Ch c s' => p c && all_chars p s'
  end.

(** The piece ends, or starts, with a word character. *)
Definition word_before (pre : str) : bool :=
  match last_char None pre with
  | Some c => is_word c
  | None => false
  end.

Definition word_after (post : str) : bool :=
  match post with
  | Ch c _ => is_word c
  | EmptyStr => false
  end.

(** The piece [u] reads as the word [w] of a pattern compiled with
    re.IGNORECASE: as many code points, each one matching its letter. *)
Fixpoint reads_as (w u : str) : bool :=
  match w, u with
  | EmptyStr, EmptyStr => true
  | Ch l w', Ch c u' => ignorecase_eq U l c && reads_as w' u'
  | _, _ => false
  end.

(** The four keyword pairs of [SQL_INJECTION_REGEX]. *)
Definition SQL_KEYWORDS : list (str * str) :=
  [("DROP", "TABLE"); ("UNION", "SELECT"); ("INSERT", "INTO"); ("DELETE", "FROM")].

Lemma last_char_app (prev : option char) (a b : str) :
  last_char prev (a ++ b) = last_char (last_char prev a) b.
Proof.
  revert prev. induction a as [|c a IH]; intros prev; simpl; [reflexivity|].
  apply IH.
Qed.

Lemma last_char_nonempty (p q : option char) (s : str) :
  s <> "" -> last_char p s = last_char q s.
Proof. destruct s; [congruence | reflexivity]. Qed.

Lemma append_assoc (a b c : str) :
  ((a ++ b) ++ c)%str = (a ++ b ++ c)%str.
Proof. induction a as [|x a IH]; simpl; [reflexivity | now rewrite IH]. Qed.

Lemma reads_as_nonempty (l : char) (w u : str) :
  reads_as (Ch l w) u = true -> u <> "".
Proof. destruct u; [discriminate | discriminate]. Qed.

(** *** The matcher, construct by construct *)

Lemma match_word_iff (w : str) :
  forall (k : Re.cont) (prev : option char) (s : str),
    match_here true (Re.word w) k prev s = true <->
    exists u rest,
      s = (u ++ rest)%str
      /\ reads_as w u = true
      /\ k (last_char prev u) rest = true.
Proof.
  induction w as [|c w IH]; intros k prev s.
  - simpl. split.
    + intros H. now exists "", s.
    + intros (u & rest & -> & Hu & Hk).
      destruct u; [exact Hk | discriminate Hu].
  - change (match_here true (Re.word (Ch c w)) k prev s)
      with (match s with
            | Ch a s' =>
                ignorecase_eq U c a && match_here true (Re.word w) k (Some a) s'
            | EmptyStr => false
            end).
    split.
    + destruct s as [|a s']; [discriminate|].
      intros H. apply andb_prop in H as [Hc Hrest].
      apply IH in Hrest as (u & rest & -> & Hu & Hk).
      exists (Ch a u), rest. repeat split.
      * simpl. now rewrite Hc, Hu.
      * exact Hk.
    + intros (u & rest & -> & Hu & Hk).
      destruct u as [|a u]; [discriminate Hu|].
      simpl in Hu. apply andb_prop in Hu as [Hc Hu].
      simpl. rewrite Hc. simpl.
      apply IH. now exists u, rest.
Qed.

Lemma repeat1_iff (p : char -> bool) (k : Re.cont) (s : str) :
  repeat1 p k s = true <->
  exists ws rest,
    s = (ws ++ rest)%str
    /\ ws <> ""
    /\ all_chars p ws = true
    /\ k (last_char None ws) rest = true.
Proof.
  induction s as [|c s IH]; simpl.
  - split; [discriminate|].
    intros (ws & rest & H & Hne & _).
    destruct ws; [now contradiction Hne | discriminate H].
  - split.
    + intros H. apply andb_prop in H as [Hc H].
      apply orb_prop in H as [H|H].
      * apply IH in H as (ws & rest & -> & Hne & Hall & Hk).
        exists (Ch c ws), rest. repeat split.
        -- discriminate.
        -- simpl. now rewrite Hc.
        -- simpl. now rewrite (last_char_nonempty _ None ws Hne).
      * exists (Ch c ""), s. repeat split.
        -- discriminate.
        -- simpl. now rewrite Hc.
        -- exact H.
    + intros (ws & rest & H & Hne & Hall & Hk).
      destruct ws as [|a ws]; [now contradiction Hne|].
      simpl in H. injection H as <- ->.
      simpl in Hall. apply andb_prop in Hall as [Hc Hall]. rewrite Hc. simpl.
      destruct ws as [|b ws].
      * simpl in Hk |- *. rewrite Hk. apply orb_true_r.
      * apply orb_true_intro. left. apply IH.
        exists (Ch b ws), rest. repeat split; try assumption; discriminate.
Qed.

Lemma search_from_iff (r : Re.regex) :
  forall (prev : option char) (s : str),
    search_from true r prev s = true <->
    exists pre rest,
      s = (pre ++ rest)%str
      /\ match_here true r (fun _ _ => true) (last_char prev pre) rest = true.
Proof.
  intros prev s. revert prev.
  induction s as [|c s IH]; intros prev.
  - simpl. rewrite orb_false_r. split.
    + intros H. now exists "", "".
    + intros (pre & rest & H & Hm).
      destruct pre; [|discriminate H]. simpl in H. now subst rest.
  - cbn [search_from]. split.
    + intros H. apply orb_prop in H as [H|H].
      * now exists "", (Ch c s).
      * apply IH in H as (pre & rest & -> & Hm).
        now exists (Ch c pre), rest.
    + intros (pre & rest & H & Hm).
      destruct pre as [|a pre].
      * simpl in H, Hm. subst rest. now rewrite Hm.
      * simpl in H. injection H as <- ->.
        apply orb_true_intro. right. apply IH. now exists pre, rest.
Qed.

Lemma word_after_app (u rest : str) :
  u <> "" -> word_after (u ++ rest) = word_after u.
Proof. destruct u; [congruence | reflexivity]. Qed.

(** One keyword, blanks, another keyword. *)
Definition keyword_pair (a b : str) : Re.regex :=
  Re.Seq (Re.word a) (Re.Seq (Re.Repeat1 Re.CategorySpace) (Re.word b)).

Lemma keyword_pair_iff (a b : str) (k : Re.cont) (prev : option char)
    (s : str) :
  match_here true (keyword_pair a b) k prev s = true <->
  exists k1 ws k2 rest,
    s = (k1 ++ ws ++ k2 ++ rest)%str
    /\ reads_as a k1 = true
    /\ ws <> ""
    /\ all_chars (isspace U) ws = true
    /\ reads_as b k2 = true
    /\ k (last_char (last_char None ws) k2) rest = true.
Proof.
  unfold keyword_pair. cbn [match_here]. split.
  - intros H.
    apply match_word_iff in H as (k1 & rest1 & -> & Hk1 & H).
    apply repeat1_iff in H as (ws & rest2 & -> & Hne & Hall & H).
    apply match_word_iff in H as (k2 & rest & -> & Hk2 & Hk).
    now exists k1, ws, k2, rest.
  - intros (k1 & ws & k2 & rest & -> & Hk1 & Hne & Hall & Hk2 & Hk).
    apply match_word_iff. exists k1, (ws ++ k2 ++ rest)%str.
    repeat split; [exact Hk1|].
    apply repeat1_iff. exists ws, (k2 ++ rest)%str.
    repeat split; try assumption.
    apply match_word_iff. now exists k2, rest.
Qed.

Lemma SQL_INJECTION_REGEX_tree :
  Re.tree SQL_INJECTION_REGEX =
  Re.Seq Re.WordBoundary
    (Re.Seq
       (Re.Branch (keyword_pair "DROP" "TABLE")
          (Re.Branch (keyword_pair "UNION" "SELECT")
             (Re.Branch (keyword_pair "INSERT" "INTO")
                (keyword_pair "DELETE" "FROM"))))
       Re.WordBoundary).
Proof. reflexivity. Qed.

(** X1: [SQL_INJECTION_REGEX] finds a match in a text exactly when the
    text can be cut into five pieces: anything; a piece that reads as
    DROP, UNION, INSERT or DELETE under re.IGNORECASE; one or more
    blanks; a piece that reads as the paired keyword TABLE, SELECT,
    INTO or FROM; and anything; with a word boundary before the first
    keyword and one after the second, that is, a word character on
    exactly one side of each of these two cuts. *)
Theorem sql_pattern_matches_exactly (text : str) :
  search SQL_INJECTION_REGEX text = true <->
  exists pre k1 ws k2 post first second,
    text = (pre ++ k1 ++ ws ++ k2 ++ post)%str
    /\ In (first, second) SQL_KEYWORDS
    /\ reads_as first k1 = true
    /\ reads_as second k2 = true
    /\ ws <> ""
    /\ all_chars (isspace U) ws = true
    /\ xorb (word_before pre) (word_after k1) = true
    /\ xorb (word_before k2) (word_after post) = true.
Proof.
  unfold search.
  change (Re.ignorecase SQL_INJECTION_REGEX) with true.
  rewrite SQL_INJECTION_REGEX_tree.
  set (after := fun (p : option char) (s : str) => at_boundary p s && true).
  assert (Hends : forall a b k1 ws k2 pre post,
             In (a, b) SQL_KEYWORDS ->
             reads_as a k1 = true ->
             reads_as b k2 = true ->
             at_boundary (last_char None pre) (k1 ++ ws ++ k2 ++ post)
               = xorb (word_before pre) (word_after k1)
             /\ after (last_char (last_char None ws) k2) post
                = xorb (word_before k2) (word_after post)).
  { intros a b k1 ws k2 pre post Hin Hk1 Hk2.
    assert (Hne : k1 <> "" /\ k2 <> "").
    { destruct Hin as [Hin|[Hin|[Hin|[Hin|[]]]]]; injection Hin as <- <-;
        split; eapply reads_as_nonempty; eassumption. }
    destruct Hne as [Hne1 Hne2]. split.
    - unfold at_boundary.
      change (match (k1 ++ ws ++ k2 ++ post)%str with
              | Ch c _ => is_word c
              | EmptyStr => false
              end) with (word_after (k1 ++ ws ++ k2 ++ post)).
      now rewrite (word_after_app k1 (ws ++ k2 ++ post) Hne1).
    - unfold after, at_boundary. rewrite andb_true_r.
      now rewrite (last_char_nonempty _ None k2 Hne2). }
  split.
  - intros H. apply search_from_iff in H as (pre & rest & -> & H).
    cbn [match_here] in H. fold after in H.
    apply andb_prop in H as [Hstart H].
    assert (Hpair : exists a b,
               In (a, b) SQL_KEYWORDS
               /\ match_here true (keyword_pair a b) after
                    (last_char None pre) rest = true).
    { apply orb_prop in H as [H|H];
        [|apply orb_prop in H as [H|H]; [|apply orb_prop in H as [H|H]]];
        [exists "DROP", "TABLE" | exists "UNION", "SELECT"
        | exists "INSERT", "INTO" | exists "DELETE", "FROM"];
        (split; [simpl; tauto | exact H]). }
    destruct Hpair as (a & b & Hin & Hm).
    apply keyword_pair_iff in Hm
      as (k1 & ws & k2 & post & -> & Hk1 & Hne & Hall & Hk2 & Hend).
    destruct (Hends a b k1 ws k2 pre post Hin Hk1 Hk2) as (Hb & He).
    rewrite Hb in Hstart. rewrite He in Hend.
    exists pre, k1, ws, k2, post, a, b. repeat split; assumption.
  - intros (pre & k1 & ws & k2 & post & a & b
            & -> & Hin & Hk1 & Hk2 & Hne & Hall & Hpre & Hpost).
    apply search_from_iff. exists pre, (k1 ++ ws ++ k2 ++ post)%str.
    split; [reflexivity|].
    destruct (Hends a b k1 ws k2 pre post Hin Hk1 Hk2) as (Hb & He).
    cbn [match_here]. fold after.
    rewrite Hb, Hpre. cbn [andb].
    assert (Hm : match_here true (keyword_pair a b) after
                   (last_char None pre) (k1 ++ ws ++ k2 ++ post) = true).
    { apply keyword_pair_iff. exists k1, ws, k2, post.
      repeat split; try assumption. now rewrite He. }
    destruct Hin as [Hin|[Hin|[Hin|[Hin|[]]]]]; injection Hin as <- <-;
      rewrite Hm; cbn [orb]; rewrite ?orb_true_r; reflexivity.
Qed.

(** *** What [str.strip] leaves *)

Definition starts_blank (s : str) : bool :=
  match s with
  | Ch c _ => isspace U c
  | EmptyStr => false
  end.

Definition ends_blank (s : str) : bool :=
  match last_char None s with
  | Some c => isspace U c
  | None => false
  end.

Lemma all_chars_app (p : char -> bool) (a b : str) :
  all_chars p (a ++ b) = all_chars p a && all_chars p b.
Proof.
  induction a as [|c a IH]; simpl; [reflexivity|].
  now rewrite IH, andb_assoc.
Qed.

Lemma lstrip_spec (s : str) :
  exists a,
    s = (a ++ lstrip s)%str
    /\ all_chars (isspace U) a = true
    /\ starts_blank (lstrip s) = false.
Proof.
  induction s as [|c s (a & Hs & Ha & Hstart)].
  - now exists "".
  - simpl. destruct (isspace U c) eqn:Hc.
    + exists (Ch c a). simpl. rewrite Hc, Ha. repeat split; [|exact Hstart].
      now rewrite <- Hs.
    + exists "". simpl. now rewrite Hc.
Qed.

Lemma rstrip_spec (s : str) :
  exists b,
    s = (rstrip s ++ b)%str
    /\ all_chars (isspace U) b = true
    /\ ends_blank (rstrip s) = false.
Proof.
  induction s as [|c s (b & Hs & Hb & Hend)].
  - now exists "".
  - simpl. destruct (rstrip s) as [|d r] eqn:Hr.
    + simpl in Hs. subst b. destruct (isspace U c) eqn:Hc.
      * exists (Ch c s). simpl. now rewrite Hc, Hb.
      * exists s. unfold ends_blank. simpl. now rewrite Hc, Hb.
    + exists b. repeat split; [|exact Hb|exact Hend].
      simpl. now rewrite Hs at 1.
Qed.

(** [strip] removes blanks at both ends, all of them, and nothing else. *)
Lemma strip_spec (s : str) :
  exists a b,
    s = (a ++ strip s ++ b)%str
    /\ all_chars (isspace U) a = true
    /\ all_chars (isspace U) b = true
    /\ starts_blank (strip s) = false
    /\ ends_blank (strip s) = false.
Proof.
  unfold strip.
  destruct (rstrip_spec s) as (b & Hs & Hb & Hend).
  destruct (lstrip_spec (rstrip s)) as (a & Hr & Ha & Hstart).
  exists a, b. repeat split; try assumption.
  - rewrite <- append_assoc, <- Hr. exact Hs.
  - destruct (lstrip (rstrip s)) as [|c t] eqn:Ht; [reflexivity|].
    unfold ends_blank in *. rewrite Hr, last_char_app in Hend.
    now rewrite (last_char_nonempty None (last_char None a)) by discriminate.
Qed.

(** X3: whatever the generation chain does, [generate_ollama_response]
    returns a string that is not empty. When the chain replies with
    more than blanks, the string is that reply with the blanks at its
    two ends removed, all of them, and nothing else changed: it
    neither starts nor ends with a blank. When the reply is empty or
    all blanks the string is "No response generated.", and when the
    chain raises it is "Error generating response.". *)
Theorem generated_response_is_trimmed (text : str) (s : State) :
  exists (r : str) (s' : State),
    generate_ollama_response text s = (Returned r, s')
    /\ r <> ""
    /\ match response_chain (length (generate_calls s)) text with
       | Returned reply =>
           if Str.truthy (strip reply) then
             r = strip reply
             /\ starts_blank r = false
             /\ ends_blank r = false
             /\ exists a b,
                  reply = (a ++ r ++ b)%str
                  /\ all_chars (isspace U) a = true
                  /\ all_chars (isspace U) b = true
           else
             r = "No response generated."
             /\ all_chars (isspace U) reply = true
       | Raised _ => r = "Error generating response."
       end.
Proof.
  rewrite generate_eq.
  destruct (response_chain (length (generate_calls s)) text) as [reply|e].
  - destruct (strip_spec reply) as (a & b & Hreply & Ha & Hb & Hstart & Hend).
    destruct (strip reply) as [|c t] eqn:Hstrip.
    + eexists; eexists. split; [reflexivity|].
      split; [discriminate|]. cbn [Str.truthy]. split; [reflexivity|].
      rewrite Hreply. cbn [Str.append]. now rewrite all_chars_app, Ha, Hb.
    + eexists; eexists. split; [reflexivity|].
      split; [discriminate|]. cbn [Str.truthy Str.or_else].
      repeat split; try assumption.
      exists a, b. repeat split; assumption.
  - eexists; eexists. split; [reflexivity|].
    split; [discriminate | reflexivity].
Qed.

(** *** One call of [is_input_safe], path by path *)

Lemma evaluate_step (text : str) (s : State) :
  cache_wf (lru s) ->
  exists (d : Dict) (s' : State),
    is_input_safe text s = (Returned d, s')
    /\ ((exists reason,
           rule_based_checks text = Some reason
           /\ d = [("status", VStr "blocked"); ("reason", VStr reason);
                   ("score", VNone); ("response", VStr REFUSAL)]
           /\ s' = s)
        \/
        (rule_based_checks text = None
         /\ exists (l : str) (s1 : State),
              classify_input_with_ollama text s = (Returned (classification l), s1)
              /\ (l = "UNSAFE"
                  /\ d = [("status", VStr "blocked");
                          ("reason", VStr CLASSIFIER_REASON);
                          ("score", VFloat 1.0%float);
                          ("response", VStr REFUSAL)]
                  /\ s' = s1
                  \/
                  l <> "UNSAFE"
                  /\ exists reply,
                       generate_ollama_response text s1 = (Returned reply, s')
                       /\ d = [("status", VStr "allowed");
                               ("score", VFloat 0.0%float);
                               ("response", VStr reply)]))).
Proof.
  intros Hwf.
  destruct (rule_based_checks text) as [reason|] eqn:Hrule.
  - destruct (evaluate_matched text reason s Hrule) as [Heq _].
    rewrite Heq. eexists; eexists. split; [reflexivity|].
    left. now exists reason.
  - rewrite (evaluate_unmatched text s Hrule).
    destruct (classify_cases text s Hwf) as (l & s1 & Hrun & _).
    rewrite Hrun. unfold classification at 1. rewrite decide_eq.
    rewrite over_threshold_classification.
    destruct (Str.eqb_spec l "UNSAFE") as [->|Hne].
    + eexists; eexists. split; [reflexivity|].
      right. split; [reflexivity|]. exists "UNSAFE", s1.
      split; [reflexivity|]. left. repeat split.
    + destruct (generate_returns text s1) as (reply & s2 & Hreply & _).
      rewrite Hreply. eexists; eexists. split; [reflexivity|].
      right. split; [reflexivity|]. exists l, s1.
      split; [reflexivity|]. right. split; [exact Hne|]. now exists reply.
Qed.

(** X4: the score of a verdict tells which path produced it. It is
    None when a rule matched, 1.0 when the classifier blocked, and 0.0
    when the text was allowed: an allowed verdict never carries a
    positive score. The three reasons are the three fixed texts. *)
Theorem verdict_score_tells_the_path (text : str) (s : State) :
  cache_wf (lru s) ->
  exists (d : Dict) (s' : State),
    is_input_safe text s = (Returned d, s')
    /\ (rule_based_checks text <> None
        /\ lookup "status" d = Some (VStr "blocked")
        /\ lookup "score" d = Some VNone
        /\ (lookup "reason" d = Some (VStr KEYWORD_REASON)
            \/ lookup "reason" d = Some (VStr INJECTION_REASON))
        \/
        rule_based_checks text = None
        /\ lookup "status" d = Some (VStr "blocked")
        /\ lookup "score" d = Some (VFloat 1.0%float)
        /\ lookup "reason" d = Some (VStr CLASSIFIER_REASON)
        \/
        rule_based_checks text = None
        /\ lookup "status" d = Some (VStr "allowed")
        /\ lookup "score" d = Some (VFloat 0.0%float)
        /\ lookup "reason" d = None).
Proof.
  intros Hwf.
  destruct (evaluate_step text s Hwf) as (d & s' & Heval & Hpath).
  exists d, s'. split; [exact Heval|].
  destruct Hpath as [(reason & Hrule & -> & _) | (Hrule & l & s1 & _ & Hpath)].
  - left. split; [congruence|]. repeat split.
    rewrite rule_based_checks_cases in Hrule.
    destruct (existsb _ BLOCKLIST); [|destruct (search _ _)];
      inversion Hrule; subst; simpl; tauto.
  - destruct Hpath as [(_ & -> & _) | (_ & reply & _ & ->)].
    + right. left. now repeat split.
    + right. right. now repeat split.
Qed.

(** X5: a failure of the classification chain is remembered. After a
    call on an unmatched, uncached text during which the chain raised,
    the next call on that text is blocked with score 1.0 again, and
    the chain is not asked: it makes no difference what the chain
    would answer by then. *)
Theorem classifier_failure_is_remembered (text : str) (s : State) (e : exn) :
  rule_based_checks text = None ->
  cache_get text (lru s) = None ->
  classification_chain (length (classify_calls s)) text = Raised e ->
  exists s1 s2 : State,
    is_input_safe text s =
      (Returned [("status", VStr "blocked");
                 ("reason", VStr "Ollama classified as unsafe");
                 ("score", VFloat 1.0%float);
                 ("response", VStr "This prompt is unsafe, can't answer.")], s1)
    /\ classify_calls s1 = text :: classify_calls s
    /\ is_input_safe text s1 =
      (Returned [("status", VStr "blocked");
                 ("reason", VStr "Ollama classified as unsafe");
                 ("score", VFloat 1.0%float);
                 ("response", VStr "This prompt is unsafe, can't answer.")], s2)
    /\ classify_calls s2 = classify_calls s1
    /\ generate_calls s2 = generate_calls s.
Proof.
  intros Hrule Hmiss Hdown.
  assert (Hwrapped : classify_input_with_ollama__wrapped text s =
            (Returned UNSAFE_DEFAULT,
             mkState (lru s) (text :: classify_calls s) (generate_calls s)
               (stdout s ++ [("[ERROR] LangChain/Ollama classification failed: "
                               ++ str_of_exn e)%str])))
    by now rewrite wrapped_eq, Hdown.
  assert (Hblocked : forall s0,
             decide_and_respond text UNSAFE_DEFAULT s0 =
             (Returned [("status", VStr "blocked");
                        ("reason", VStr CLASSIFIER_REASON);
                        ("score", VFloat 1.0%float);
                        ("response", VStr REFUSAL)], s0)).
  { intros s0. unfold UNSAFE_DEFAULT. now rewrite decide_eq. }
  eexists; eexists.
  rewrite (evaluate_unmatched text s Hrule).
  unfold classify_input_with_ollama at 1.
  rewrite (lru_cache_miss _ _ _ _ _ _ CACHE_SIZE_positive Hmiss Hwrapped).
  rewrite Hblocked.
  split; [reflexivity|]. split; [reflexivity|].
  rewrite (evaluate_unmatched text _ Hrule).
  unfold classify_input_with_ollama.
  rewrite (lru_cache_hit CACHE_SIZE _ text UNSAFE_DEFAULT).
  - rewrite Hblocked. repeat split.
  - apply CACHE_SIZE_positive.
  - cbn [lru with_lru]. now apply cache_get_put.
Qed.


(** *** The states the backend can reach *)

Lemma keys_after_classify (text : str) (s : State) :
  NoDup (keys (lru s)) ->
  NoDup (keys (lru (snd (classify_input_with_ollama text s))))
  /\ forall k, In k (keys (lru (snd (classify_input_with_ollama text s)))) ->
               k = text \/ In k (keys (lru s)).
Proof.
  intros Hnodup. unfold classify_input_with_ollama.
  rewrite (recency_after_call CACHE_SIZE text s CACHE_SIZE_positive).
  assert (Hlast : forall l : list str,
             NoDup l -> ~ In text l -> NoDup (l ++ [text])).
  { intros l Hl Hnot. apply NoDup_app; [exact Hl | repeat constructor; tauto|].
    intros a Ha [<-|[]]. contradiction. }
  assert (Htl : forall l : list str, NoDup l -> NoDup (tl l))
    by (intros [|x l] Hl; [exact Hl | now inversion Hl]).
  assert (Hin_tl : forall (l : list str) k, In k (tl l) -> In k l)
    by (intros [|x l] k; simpl; tauto).
  destruct (cache_get text (lru s)) eqn:Hget.
  - split.
    + apply Hlast; [now apply NoDup_filter|].
      intros Hin. apply filter_In in Hin as [_ Hneq].
      now rewrite Str.eqb_refl in Hneq.
    + intros k Hin. apply in_app_or in Hin as [Hin|[<-|[]]]; [|now left].
      right. now apply filter_In in Hin as [Hin _].
  - apply cache_get_keys in Hget.
    destruct (Nat.leb CACHE_SIZE (length (lru s))); split.
    + apply Hlast; [now apply Htl | intros Hin; now apply Hget, Hin_tl].
    + intros k Hin. apply in_app_or in Hin as [Hin|[<-|[]]]; [|now left].
      right. now apply Hin_tl.
    + now apply Hlast.
    + intros k Hin. apply in_app_or in Hin as [Hin|[<-|[]]]; [now right | now left].
Qed.

(** What every call keeps true of the cache. *)
Definition cache_inv (c : Cache) : Prop :=
  length c <= CACHE_SIZE
  /\ NoDup (keys c)
  /\ cache_wf c
  /\ forall k, In k (keys c) -> rule_based_checks k = None.

Lemma evaluate_keeps_inv (text : str) (s : State) :
  cache_inv (lru s) ->
  exists (d : Dict) (s' : State),
    is_input_safe text s = (Returned d, s')
    /\ cache_inv (lru s')
    /\ (forall k, In k (keys (lru s')) -> k = text \/ In k (keys (lru s)))
    /\ length (classify_calls s') <= S (length (classify_calls s))
    /\ length (generate_calls s') <= S (length (generate_calls s)).
Proof.
  intros (Hlen & Hnodup & Hwf & Hunmatched).
  destruct (evaluate_step text s Hwf) as (d & s' & Heval & Hpath).
  exists d, s'. split; [exact Heval|].
  destruct Hpath as [(reason & _ & _ & ->) | (Hrule & l & s1 & Hrun & Hpath)].
  - repeat split; auto.
  - destruct (classify_cases text s Hwf)
      as (l' & s1' & Hrun' & Hwf1 & _ & Hgen1 & Hcase).
    destruct (same_run _ _ _ _ _ Hrun Hrun') as [-> ->].
    destruct (keys_after_classify text s Hnodup) as [Hnodup1 Hkeys1].
    pose proof (lru_cache_keeps_capacity CACHE_SIZE text s
                  CACHE_SIZE_positive Hlen) as Hlen1.
    fold (classify_input_with_ollama text s) in Hlen1.
    rewrite Hrun in Hnodup1, Hkeys1, Hlen1. cbn [snd] in Hnodup1, Hkeys1, Hlen1.
    assert (Hcalls1 : length (classify_calls s1) <= S (length (classify_calls s))).
    { destruct Hcase as [(_ & _ & ->) | (_ & _ & -> & _)]; simpl; lia. }
    assert (Hinv1 : cache_inv (lru s1)).
    { repeat split; try assumption.
      intros k Hin. destruct (Hkeys1 k Hin) as [->|Hold]; auto. }
    destruct Hpath as [(_ & _ & ->) | (_ & reply & Hreply & _)].
    + repeat split; try assumption; try apply Hinv1. rewrite Hgen1. lia.
    + destruct (generate_returns text s1)
        as (reply' & s2 & Hreply' & Hlru & Hcalls & Hgen).
      rewrite Hreply in Hreply'. injection Hreply' as _ ->.
      rewrite Hlru, Hcalls, Hgen, Hgen1. repeat split; try assumption;
        try apply Hinv1. simpl. lia.
Qed.

(** X6: in every state the backend reaches from its start by
    evaluating texts one after the other, the cache holds at most
    CACHE_SIZE entries, no text twice, and only results the adapter
    built for texts that were evaluated and matched no rule; the
    chains were invoked at most once per evaluated text. No call
    raised. *)
Theorem reachable_states_are_sound (texts : list str) :
  exists s : State,
    run_each is_input_safe texts initial_state = (Returned tt, s)
    /\ length (lru s) <= CACHE_SIZE
    /\ NoDup (keys (lru s))
    /\ cache_wf (lru s)
    /\ (forall k, In k (keys (lru s)) -> In k texts /\ rule_based_checks k = None)
    /\ length (classify_calls s) <= length texts
    /\ length (generate_calls s) <= length texts.
Proof.
  assert (Hrun : forall (l : list str) (s0 : State),
             cache_inv (lru s0) ->
             exists s,
               run_each is_input_safe l s0 = (Returned tt, s)
               /\ cache_inv (lru s)
               /\ (forall k, In k (keys (lru s)) ->
                             In k l \/ In k (keys (lru s0)))
               /\ length (classify_calls s)
                  <= length l + length (classify_calls s0)
               /\ length (generate_calls s)
                  <= length l + length (generate_calls s0)).
  { induction l as [|text rest IH]; intros s0 Hinv.
    - exists s0. split; [reflexivity|]. split; [exact Hinv|].
      split; [intros k Hin; now right | simpl; lia].
    - destruct (evaluate_keeps_inv text s0 Hinv)
        as (d & s1 & Heval & Hinv1 & Hkeys1 & Hc1 & Hg1).
      destruct (IH s1 Hinv1) as (s & Hrest & Hinv' & Hkeys & Hc & Hg).
      exists s. split; [simpl; unfold bind; now rewrite Heval|].
      split; [exact Hinv'|]. split; [|simpl; lia].
      intros k Hin. destruct (Hkeys k Hin) as [Hk|Hk]; [left; now right|].
      destruct (Hkeys1 k Hk) as [->|Hold]; [left; now left | now right]. }
  destruct (Hrun texts initial_state) as (s & Heq & Hinv & Hkeys & Hc & Hg).
  { unfold cache_inv. simpl. unfold CACHE_SIZE.
    split; [lia|]. split; [constructor|]. split; [constructor|].
    intros k []. }
  destruct Hinv as (Hlen & Hnodup & Hwf & Hunmatched).
  exists s. repeat split; try assumption.
  - destruct (Hkeys k H) as [Hk|[]]. exact Hk.
  - now apply Hunmatched.
  - simpl in Hc. lia.
  - simpl in Hg. lia.
Qed.


(** *** The endpoint /check-input *)

Record UserRequest : Type := {
  text : str;
  user_id : option str
}.

Record FirewallResponse : Type := {
  status : str;
  reason : option str;
  score : option float;
  response : option str
}.

(** [repr] of a float, as an f-string prints it. *)
Variable float_repr : float -> str.

(** [str(v)] *)
Definition str_of_value (v : value) : str :=
  match v with
  | VNone => "None"
  | VStr x => x
  | VFloat f => float_repr f
  end.

(** [user_id or 'Anonymous'] *)
Definition or_anonymous (user : option str) : str :=
  match user with
  | Some u => Str.or_else u "Anonymous"
  | None => "Anonymous"
  end.

Definition required_str (d : Dict) (key : str) : M str :=
  match lookup key d with
  | Some (VStr x) => ret x
  | _ => raise (Exception ("validation error for FirewallResponse: " ++ key))
  end.

Definition optional_str (d : Dict) (key : str) : M (option str) :=
  match lookup key d with
  | None | Some VNone => ret None
  | Some (VStr x) => ret (Some x)
  | Some (VFloat _) =>
      raise (Exception ("validation error for FirewallResponse: " ++ key))
  end.

Definition optional_float (d : Dict) (key : str) : M (option float) :=
  match lookup key d with
  | None | Some VNone => ret None
  | Some (VFloat f) => ret (Some f)
  | Some (VStr _) =>
      raise (Exception ("validation error for FirewallResponse: " ++ key))
  end.

(** The FirewallResponse built from the items of [result]: a missing
    optional field and a field set to None both give None. A value of the wrong type is refused;
    the conversions pydantic may attempt between str and float are
    left out, [is_input_safe] builds no such value. *)
Definition FirewallResponse_of (result : Dict) : M FirewallResponse :=
  st <- required_str result "status" ;;
  re <- optional_str result "reason" ;;
  sc <- optional_float result "score" ;;
  rs <- optional_str result "response" ;;
  ret {| status := st; reason := re; score := sc; response := rs |}.

Definition check_input (request : UserRequest) : M FirewallResponse :=
  result <- is_input_safe (text request) ;;
  logged_status <- getitem result "status" ;;
  print ("[LOG] User: " ++ or_anonymous (user_id request)
         ++ " | Text: " ++ Str.slice_to 50 (text request)
         ++ "... | Status: " ++ str_of_value logged_status)%str ;;;
  FirewallResponse_of result.

(** Lines 551-556 of [AIFirewallGUI.handle_response]: the style sheet
    the score indicator gets for a score that is a number. *)
Definition score_indicator_style (shown : float) : str :=
  if PrimFloat.ltb 80%float shown then
    "QProgressBar::chunk { background-color: #2ecc71; }"
  else if PrimFloat.ltb 50%float shown then
    "QProgressBar::chunk { background-color: #f39c12; }"
  else
    "QProgressBar::chunk { background-color: #e74c3c; }".

Definition log_line (request : UserRequest) (logged_status : str) : str :=
  ("[LOG] User: " ++ or_anonymous (user_id request)
   ++ " | Text: " ++ Str.slice_to 50 (text request)
   ++ "... | Status: " ++ logged_status)%str.

Definition logged (line : str) (s : State) : State :=
  mkState (lru s) (classify_calls s) (generate_calls s) (stdout s ++ [line]).


(** The endpoint on each of the three paths of [is_input_safe]. *)
Lemma check_input_cases (request : UserRequest) (s : State) :
  cache_wf (lru s) ->
  exists (d : Dict) (s1 : State) (answer : FirewallResponse),
    is_input_safe (text request) s = (Returned d, s1)
    /\ check_input request s
       = (Returned answer, logged (log_line request (status answer)) s1)
    /\ ((exists rule_reason,
           rule_based_checks (text request) = Some rule_reason
           /\ answer = {| status := "blocked"; reason := Some rule_reason;
                          score := None; response := Some REFUSAL |})
        \/ answer = {| status := "blocked"; reason := Some CLASSIFIER_REASON;
                       score := Some 1.0%float; response := Some REFUSAL |}
        \/ (exists reply,
              answer = {| status := "allowed"; reason := None;
                          score := Some 0.0%float; response := Some reply |})).
Proof.
  intros Hwf.
  destruct (evaluate_step (text request) s Hwf) as (d & s1 & Heval & Hpath).
  exists d, s1.
  unfold check_input, bind at 1. rewrite Heval.
  destruct Hpath as [(rule_reason & Hrule & -> & _) | (_ & l & s0 & _ & Hpath)];
    [|destruct Hpath as [(_ & -> & _) | (_ & reply & _ & ->)]].
  - exists {| status := "blocked"; reason := Some rule_reason;
              score := None; response := Some REFUSAL |}.
    split; [reflexivity|]. split; [reflexivity|].
    left. now exists rule_reason.
  - exists {| status := "blocked"; reason := Some CLASSIFIER_REASON;
              score := Some 1.0%float; response := Some REFUSAL |}.
    split; [reflexivity|]. split; [reflexivity|].
    right. now left.
  - exists {| status := "allowed"; reason := None;
              score := Some 0.0%float; response := Some reply |}.
    split; [reflexivity|]. split; [reflexivity|].
    right. right. now exists reply.
Qed.










(** X9: every score the endpoint answers with is 0.0 or 1.0, so lines
    551-556 of the window never select the green (above 80) or the
    orange (above 50) style for it: the score indicator is given the
    red style. *)
Theorem answered_scores_get_red_style (request : UserRequest) (s s' : State)
    (answer : FirewallResponse) (shown : float) :
  cache_wf (lru s) ->
  check_input request s = (Returned answer, s') ->
  score answer = Some shown ->
  (shown = 0.0%float \/ shown = 1.0%float)
  /\ score_indicator_style shown
     = "QProgressBar::chunk { background-color: #e74c3c; }".
Proof.
  intros Hwf Hrun Hscore.
  destruct (check_input_cases request s Hwf)
    as (d & s1 & answer' & _ & Hrun' & Hshape).
  rewrite Hrun in Hrun'. injection Hrun' as <- _.
  destruct Hshape as [(r & _ & ->) | [-> | (reply & ->)]];
    cbn [score] in Hscore; [discriminate| |];
    injection Hscore as <-; split; (tauto || reflexivity).
Qed.


(** X10: replies are not memoised. When a call on an unmatched text is
    allowed, a second call on the same text is allowed as well, from
    the cached classification, and it invokes the generation chain a
    second time: its response is what that second invocation gives. *)
Theorem allowed_text_is_generated_again (text : str) (s s1 : State)
    (d1 : Dict) :
  rule_based_checks text = None ->
  cache_wf (lru s) ->
  is_input_safe text s = (Returned d1, s1) ->
  lookup "status" d1 = Some (VStr "allowed") ->
  exists (reply : str) (s2 : State),
    is_input_safe text s1
      = (Returned [("status", VStr "allowed");
                   ("score", VFloat 0.0%float);
                   ("response", VStr reply)], s2)
    /\ classify_calls s2 = classify_calls s1
    /\ generate_calls s1 = text :: generate_calls s
    /\ generate_calls s2 = text :: text :: generate_calls s
    /\ reply = match response_chain (S (length (generate_calls s))) text with
               | Returned again => Str.or_else (strip again) NO_RESPONSE
               | Raised _ => GENERATION_ERROR
               end.
Proof.
  intros Hrule Hwf Heval Hallowed.
  destruct (evaluate_step text s Hwf) as (d & s' & Heval' & Hpath).
  rewrite Heval in Heval'. injection Heval' as <- <-.
  destruct Hpath as [(r & Hr & _) | (_ & l & s0 & Hrun & Hpath)]; [congruence|].
  destruct Hpath as [(_ & -> & _) | (Hne & reply1 & Hreply1 & _)];
    [discriminate Hallowed|].
  destruct (classify_cases text s Hwf)
    as (l' & s0' & Hrun' & _ & Hcached & Hgen0 & _).
  destruct (same_run _ _ _ _ _ Hrun Hrun') as [-> ->].
  destruct (generate_returns text s0)
    as (reply1' & s1' & Hreply1' & Hlru1 & Hcalls1 & Hgen1).
  rewrite Hreply1 in Hreply1'. injection Hreply1' as _ <-.
  rewrite <- Hlru1 in Hcached.
  rewrite (evaluate_unmatched text s1 Hrule).
  unfold classify_input_with_ollama.
  rewrite (lru_cache_hit _ _ _ _ _ CACHE_SIZE_positive Hcached).
  unfold classification at 1. rewrite decide_eq, generate_eq.
  rewrite over_threshold_classification.
  apply Str.eqb_neq in Hne. rewrite Hne.
  cbn [generate_calls with_lru classify_calls lru stdout].
  rewrite Hgen1, Hgen0. cbn [length].
  destruct (response_chain (S (length (generate_calls s))) text) as [again|e];
    eexists; eexists; repeat split.
Qed.



(** *** What the blocklist check matches *)

Lemma prefix_iff (w hay : str) :
  Str.prefix w hay = true <-> exists b, hay = (w ++ b)%str.
Proof.
  revert hay. induction w as [|c w IH]; intros hay.
  - split; [intros _; now exists hay | reflexivity].
  - destruct hay as [|d hay]; simpl.
    + split; [discriminate | intros (b & H); discriminate H].
    + destruct (N.eqb_spec c d) as [<-|Hne]; simpl.
      * rewrite IH. split; intros (b & H); exists b; [now rewrite H|].
        now injection H.
      * split; [discriminate|]. intros (b & H). congruence.
Qed.

Lemma contains_unfold (w hay : str) :
  Str.contains w hay =
  Str.prefix w hay ||
  match hay with
  | Ch _ hay' => Str.contains w hay'
  | EmptyStr => false
  end.
Proof. now destruct hay. Qed.

(** [w in hay] holds exactly when [hay] has [w] somewhere inside. *)
Lemma contains_iff (w hay : str) :
  Str.contains w hay = true <-> exists a b, hay = (a ++ w ++ b)%str.
Proof.
  split.
  - induction hay as [|c hay IH]; rewrite contains_unfold; intros H;
      apply orb_prop in H as [H|H]; try discriminate.
    + apply prefix_iff in H as (b & ->). now exists "", b.
    + apply prefix_iff in H as (b & ->). now exists "", b.
    + apply IH in H as (a & b & ->). now exists (Ch c a), b.
  - intros (a & b & ->). induction a as [|c a IH].
    + rewrite contains_unfold. apply orb_true_intro. left.
      apply prefix_iff. now exists b.
    + rewrite contains_unfold. apply orb_true_intro. right. exact IH.
Qed.

(** X11: [rule_based_checks] gives the keyword reason exactly for the
    texts whose lower-cased form, as [str.lower] gives it, has hack,
    exploit, malicious, inject or root somewhere inside; the term
    need not be a word of its own. *)
Theorem keyword_reason_exactly (text : str) :
  rule_based_checks text = Some KEYWORD_REASON <->
  exists before term after,
    lower U text = (before ++ term ++ after)%str
    /\ In term BLOCKLIST.
Proof.
  rewrite rule_based_checks_cases. split.
  - destruct (existsb _ BLOCKLIST) eqn:Hany.
    + intros _. apply existsb_exists in Hany as (word & Hin & Hfound).
      apply contains_iff in Hfound as (a & b & Hlow).
      now exists a, word, b.
    + destruct (search _ _); discriminate.
  - intros (before & term & after & Hlow & Hin).
    assert (Hany : existsb (fun word => Str.contains word (lower U text))
                     BLOCKLIST = true).
    { apply existsb_exists. exists term. split; [exact Hin|].
      apply contains_iff. now exists before, after. }
    now rewrite Hany.
Qed.

End Firewall.

(** ** The properties at sample inputs *)

Lemma classifier_failure_fails_closed_at_hello :
  chain_down (length (classify_calls initial_state)) "hello"
    = Raised (Exception "connection refused")
  /\ classify_calls (snd (is_input_safe ascii_text chain_down (chain_says "ok") "hello"
                            initial_state))
     <> classify_calls initial_state
  /\ fst (classify_input_with_ollama__wrapped ascii_text chain_down "hello" initial_state)
     = Returned [("label", VStr "UNSAFE"); ("score", VFloat 1.0%float)]
  /\ fst (is_input_safe ascii_text chain_down (chain_says "ok") "hello" initial_state)
     = Returned [("status", VStr "blocked");
                 ("reason", VStr "Ollama classified as unsafe");
                 ("score", VFloat 1.0%float);
                 ("response", VStr "This prompt is unsafe, can't answer.")].
Proof.
  assert (Hdown : chain_down (length (classify_calls initial_state)) "hello"
                  = Raised (Exception "connection refused")) by reflexivity.
  assert (Hinvoked :
            classify_calls (snd (is_input_safe ascii_text chain_down (chain_says "ok")
                                   "hello" initial_state))
            <> classify_calls initial_state) by (vm_compute; discriminate).
  destruct (classifier_failure_fails_closed ascii_text chain_down (chain_says "ok")
              "hello" initial_state _ Hdown) as (Hadapter & _ & Hverdict).
  split; [exact Hdown|]. split; [exact Hinvoked|]. split; [exact Hadapter|].
  exact (proj1 (Hverdict Hinvoked)).
Defined.

Lemma keyword_blocks_before_classifier_at_sample :
  existsb (fun word => Str.contains word (lower ascii_text "How to HACK a server"))
    BLOCKLIST = true
  /\ is_input_safe ascii_text chain_down chain_down "How to HACK a server" initial_state
     = (Returned [("status", VStr "blocked");
                  ("reason", VStr "Blocked due to prohibited keyword.");
                  ("score", VNone);
                  ("response", VStr "This prompt is unsafe, can't answer.")],
        initial_state).
Proof.
  assert (H : existsb (fun word =>
                         Str.contains word (lower ascii_text "How to HACK a server"))
                BLOCKLIST = true) by reflexivity.
  split; [exact H|].
  exact (proj1 (keyword_blocks_before_classifier ascii_text chain_down chain_down
                  "How to HACK a server" initial_state H)).
Defined.

Lemma injection_blocks_when_no_keyword_at_sample :
  existsb (fun word => Str.contains word (lower ascii_text "'; DROP TABLE users; --"))
    BLOCKLIST = false
  /\ search ascii_text SQL_INJECTION_REGEX "'; DROP TABLE users; --" = true
  /\ is_input_safe ascii_text chain_down chain_down "'; DROP TABLE users; --" initial_state
     = (Returned [("status", VStr "blocked");
                  ("reason", VStr "SQL injection attempt detected.");
                  ("score", VNone);
                  ("response", VStr "This prompt is unsafe, can't answer.")],
        initial_state).
Proof.
  assert (Hkw : existsb (fun word =>
                   Str.contains word (lower ascii_text "'; DROP TABLE users; --"))
                  BLOCKLIST = false) by reflexivity.
  assert (Hsql : search ascii_text SQL_INJECTION_REGEX "'; DROP TABLE users; --" = true)
    by reflexivity.
  split; [exact Hkw|]. split; [exact Hsql|].
  exact (proj1 (injection_blocks_when_no_keyword ascii_text chain_down chain_down
                  "'; DROP TABLE users; --" initial_state Hkw Hsql)).
Defined.

(** C9 as stated fails: this text matches the SQL-injection pattern,
    and the reason returned is the keyword reason, because the
    blocklist is consulted first. *)
Lemma injection_text_with_keyword_gets_keyword_reason :
  search ascii_text SQL_INJECTION_REGEX "DROP TABLE root" = true
  /\ fst (is_input_safe ascii_text (chain_says "SAFE") (chain_says "ok") "DROP TABLE root"
            initial_state)
     = Returned [("status", VStr "blocked");
                 ("reason", VStr "Blocked due to prohibited keyword.");
                 ("score", VNone);
                 ("response", VStr "This prompt is unsafe, can't answer.")]
  /\ "Blocked due to prohibited keyword." <> INJECTION_REASON.
Proof.
  split; [reflexivity|]. split; [reflexivity | discriminate].
Qed.

Lemma reply_is_normalised_into_label_at_maybe :
  chain_says " maybe " (length (classify_calls initial_state)) "hello"
    = Returned " maybe "
  /\ fst (classify_input_with_ollama__wrapped ascii_text (chain_says " maybe ") "hello"
            initial_state)
     = Returned [("label", VStr "MAYBE"); ("score", VFloat 0.0%float)].
Proof.
  assert (H : chain_says " maybe " (length (classify_calls initial_state)) "hello"
              = Returned " maybe ") by reflexivity.
  split; [exact H|].
  exact (proj1 (reply_is_normalised_into_label ascii_text (chain_says " maybe ") "hello"
                  " maybe " initial_state H)).
Defined.

(** C5 as stated fails: a reply that is neither SAFE nor UNSAFE is not
    given the label SAFE; its label is the reply, trimmed and
    upper-cased. *)
Lemma unknown_reply_keeps_its_own_label :
  fst (classify_input_with_ollama__wrapped ascii_text (chain_says " maybe ") "hello"
         initial_state)
    = Returned [("label", VStr "MAYBE"); ("score", VFloat 0.0%float)]
  /\ lookup "label" [("label", VStr "MAYBE"); ("score", VFloat 0.0%float)]
     <> Some (VStr "SAFE").
Proof.
  split; [reflexivity | discriminate].
Qed.

Lemma threshold_is_strict_at_hello :
  rule_based_checks ascii_text "hello" = None
  /\ classify_input_with_ollama ascii_text (chain_says "unsafe") "hello" initial_state
     = (Returned [("label", VStr "UNSAFE"); ("score", VFloat 1.0%float)],
        mkState [("hello", [("label", VStr "UNSAFE"); ("score", VFloat 1.0%float)])]
          ["hello"] [] [])
  /\ status_of (fst (is_input_safe ascii_text (chain_says "unsafe") (chain_says "ok") "hello"
                       initial_state))
     = Some (VStr "blocked")
  /\ (forall s' : State,
        status_of (fst (decide_and_respond ascii_text (chain_says "ok") "hello"
                          [("label", VStr "UNSAFE"); ("score", VFloat 0.80%float)] s'))
        = Some (VStr "allowed")).
Proof.
  assert (Hrule : rule_based_checks ascii_text "hello" = None) by reflexivity.
  assert (Hrun : classify_input_with_ollama ascii_text (chain_says "unsafe") "hello"
                   initial_state
                 = (Returned [("label", VStr "UNSAFE"); ("score", VFloat 1.0%float)],
                    mkState [("hello", [("label", VStr "UNSAFE");
                                        ("score", VFloat 1.0%float)])]
                      ["hello"] [] [])) by reflexivity.
  destruct (threshold_is_strict ascii_text (chain_says "unsafe") (chain_says "ok") "hello"
              "UNSAFE" 1.0%float initial_state _ Hrule Hrun)
    as (Hstatus & _ & _ & Hboundary).
  split; [exact Hrule|]. split; [exact Hrun|]. split; [exact Hstatus|].
  exact Hboundary.
Defined.



Lemma verdict_shape_at_hello :
  cache_wf (lru initial_state)
  /\ exists (d : Dict) (s' : State),
       is_input_safe ascii_text (chain_says "SAFE") (chain_says " hi ") "hello" initial_state
         = (Returned d, s')
       /\ (lookup "status" d = Some (VStr "blocked")
           /\ lookup "response" d = Some (VStr "This prompt is unsafe, can't answer.")
           /\ (exists reason, lookup "reason" d = Some (VStr reason) /\ reason <> "")
           /\ generate_calls s' = generate_calls initial_state
           \/
           lookup "status" d = Some (VStr "allowed")
           /\ lookup "reason" d = None
           /\ (exists reply,
                 generate_ollama_response ascii_text (chain_says " hi ") "hello"
                   (snd (classify_input_with_ollama ascii_text (chain_says "SAFE") "hello"
                           initial_state))
                   = (Returned reply, s')
                 /\ lookup "response" d = Some (VStr reply))
           /\ generate_calls s' = "hello" :: generate_calls initial_state).
Proof.
  assert (Hwf : cache_wf (lru initial_state)) by apply Forall_nil.
  split; [exact Hwf|].
  exact (verdict_shape ascii_text (chain_says "SAFE") (chain_says " hi ") "hello"
           initial_state Hwf).
Defined.

Lemma repeated_text_is_served_from_cache_at_hello :
  rule_based_checks ascii_text "hello" = None
  /\ cache_wf (lru initial_state)
  /\ classify_calls
       (snd (is_input_safe ascii_text (chain_says "SAFE") (chain_says "hi") "hello"
               (snd (is_input_safe ascii_text (chain_says "SAFE") (chain_says "hi") "hello"
                       initial_state))))
     = classify_calls
         (snd (is_input_safe ascii_text (chain_says "SAFE") (chain_says "hi") "hello"
                 initial_state))
  /\ fst (classify_input_with_ollama ascii_text (chain_says "SAFE") "hello"
            (snd (is_input_safe ascii_text (chain_says "SAFE") (chain_says "hi") "hello"
                    initial_state)))
     = fst (classify_input_with_ollama ascii_text (chain_says "SAFE") "hello" initial_state)
  /\ classify_calls
       (snd (is_input_safe ascii_text (chain_says "SAFE") (chain_says "hi") "Hello "
               (snd (is_input_safe ascii_text (chain_says "SAFE") (chain_says "hi") "hello"
                       initial_state))))
     = "Hello "
       :: classify_calls
            (snd (is_input_safe ascii_text (chain_says "SAFE") (chain_says "hi") "hello"
                    initial_state)).
Proof.
  assert (Hrule : rule_based_checks ascii_text "hello" = None) by reflexivity.
  assert (Hwf : cache_wf (lru initial_state)) by apply Forall_nil.
  destruct (repeated_text_is_served_from_cache ascii_text (chain_says "SAFE") (chain_says "hi")
              "hello" initial_state Hrule Hwf) as (Hcalls & Hsame & _ & Hother).
  split; [exact Hrule|]. split; [exact Hwf|]. split; [exact Hcalls|].
  split; [exact Hsame|].
  apply Hother; [discriminate | reflexivity | reflexivity].
Defined.

Lemma eviction_is_least_recently_used_at_capacity :
  CACHE_SIZE <> 0
  /\ lru initial_state = []
  /\ distinct (numerals 1001) = true
  /\ length (numerals 1001) = S CACHE_SIZE
  /\ exists s',
       run_each (lru_cache CACHE_SIZE
                   (classify_input_with_ollama__wrapped ascii_text (chain_says "SAFE")))
         (numerals 1001) initial_state
         = (Returned tt, s')
       /\ keys (lru s') = tl (numerals 1001)
       /\ cache_get (hd "" (numerals 1001)) (lru s') = None.
Proof.
  assert (Hm : CACHE_SIZE <> 0) by discriminate.
  assert (Hempty : lru initial_state = []) by reflexivity.
  assert (Hdistinct : distinct (numerals 1001) = true) by (vm_compute; reflexivity).
  assert (Hlen : length (numerals 1001) = S CACHE_SIZE) by (vm_compute; reflexivity).
  destruct (eviction_is_least_recently_used ascii_text (chain_says "SAFE") CACHE_SIZE
              (numerals 1001) initial_state Hm Hempty Hdistinct Hlen)
    as [(s' & Hrun & Hkeys & Hgone & _) _].
  split; [exact Hm|]. split; [exact Hempty|]. split; [exact Hdistinct|].
  split; [exact Hlen|].
  exists s'. split; [exact Hrun|]. split; [exact Hkeys | exact Hgone].
Defined.

(** C4 as stated fails at the capacity of the source. The texts "0" to
    "999" are classified, which fills the cache, "0" being the first
    stored; "0" is asked again, a hit; then "1000" is classified. The
    entry dropped is that of "1": the first stored text "0" is still
    served from the cache. *)
Lemma hit_saves_first_stored_text_from_eviction :
  distinct (numerals 1001) = true
  /\ hd "" (numerals 1000) = "0"
  /\ length (lru (snd (run_each (classify_input_with_ollama ascii_text (chain_says "SAFE"))
                         (numerals 1000) initial_state)))
     = CACHE_SIZE
  /\ cache_get "0"
       (lru (snd (run_each (classify_input_with_ollama ascii_text (chain_says "SAFE"))
                    (numerals 1000 ++ ["0"; "1000"]) initial_state)))
     = Some [("label", VStr "SAFE"); ("score", VFloat 0.0%float)]
  /\ cache_get "1"
       (lru (snd (run_each (classify_input_with_ollama ascii_text (chain_says "SAFE"))
                    (numerals 1000 ++ ["0"; "1000"]) initial_state)))
     = None.
Proof.
  split; [vm_compute; reflexivity|].
  split; [vm_compute; reflexivity|].
  split; [vm_compute; reflexivity|].
  split; vm_compute; reflexivity.
Qed.

(** ** The further properties at sample inputs *)

(** A classification chain that is down at its first invocation and
    answers SAFE from then on. *)
Definition chain_recovers : nat -> str -> result str :=
  fun n _ =>
    match n with
    | 0 => Raised (Exception "connection refused")
    | S _ => Returned "SAFE"
    end.

Definition no_float_repr : float -> str := fun _ => "".

Lemma verdict_score_tells_the_path_at_hello :
  cache_wf (lru initial_state)
  /\ exists (d : Dict) (s' : State),
       is_input_safe ascii_text (chain_says "SAFE") (chain_says "hi") "hello" initial_state
         = (Returned d, s')
       /\ (rule_based_checks ascii_text "hello" <> None
           /\ lookup "status" d = Some (VStr "blocked")
           /\ lookup "score" d = Some VNone
           /\ (lookup "reason" d = Some (VStr KEYWORD_REASON)
               \/ lookup "reason" d = Some (VStr INJECTION_REASON))
           \/
           rule_based_checks ascii_text "hello" = None
           /\ lookup "status" d = Some (VStr "blocked")
           /\ lookup "score" d = Some (VFloat 1.0%float)
           /\ lookup "reason" d = Some (VStr CLASSIFIER_REASON)
           \/
           rule_based_checks ascii_text "hello" = None
           /\ lookup "status" d = Some (VStr "allowed")
           /\ lookup "score" d = Some (VFloat 0.0%float)
           /\ lookup "reason" d = None).
Proof.
  assert (Hwf : cache_wf (lru initial_state)) by apply Forall_nil.
  split; [exact Hwf|].
  exact (verdict_score_tells_the_path ascii_text (chain_says "SAFE") (chain_says "hi")
           "hello" initial_state Hwf).
Defined.

Lemma classifier_failure_is_remembered_at_hello :
  rule_based_checks ascii_text "hello" = None
  /\ cache_get "hello" (lru initial_state) = None
  /\ chain_recovers (length (classify_calls initial_state)) "hello"
     = Raised (Exception "connection refused")
  /\ chain_recovers 1 "hello" = Returned "SAFE"
  /\ exists s1 s2 : State,
       is_input_safe ascii_text chain_recovers (chain_says "hi") "hello" initial_state =
         (Returned [("status", VStr "blocked");
                    ("reason", VStr "Ollama classified as unsafe");
                    ("score", VFloat 1.0%float);
                    ("response", VStr "This prompt is unsafe, can't answer.")], s1)
       /\ classify_calls s1 = "hello" :: classify_calls initial_state
       /\ is_input_safe ascii_text chain_recovers (chain_says "hi") "hello" s1 =
         (Returned [("status", VStr "blocked");
                    ("reason", VStr "Ollama classified as unsafe");
                    ("score", VFloat 1.0%float);
                    ("response", VStr "This prompt is unsafe, can't answer.")], s2)
       /\ classify_calls s2 = classify_calls s1
       /\ generate_calls s2 = generate_calls initial_state.
Proof.
  assert (Hrule : rule_based_checks ascii_text "hello" = None) by reflexivity.
  assert (Hmiss : cache_get "hello" (lru initial_state) = None) by reflexivity.
  assert (Hdown : chain_recovers (length (classify_calls initial_state)) "hello"
                  = Raised (Exception "connection refused")) by reflexivity.
  split; [exact Hrule|]. split; [exact Hmiss|]. split; [exact Hdown|].
  split; [reflexivity|].
  exact (classifier_failure_is_remembered ascii_text chain_recovers (chain_says "hi")
           "hello" initial_state _ Hrule Hmiss Hdown).
Defined.


Lemma answered_scores_get_red_style_at_hello :
  cache_wf (lru initial_state)
  /\ check_input ascii_text (chain_says "unsafe") (chain_says "hi") no_float_repr
       {| text := "hello"; user_id := None |} initial_state
     = (Returned {| status := "blocked";
                    reason := Some "Ollama classified as unsafe";
                    score := Some 1.0%float;
                    response := Some "This prompt is unsafe, can't answer." |},
        snd (check_input ascii_text (chain_says "unsafe") (chain_says "hi") no_float_repr
               {| text := "hello"; user_id := None |} initial_state))
  /\ score_indicator_style 1.0%float
     = "QProgressBar::chunk { background-color: #e74c3c; }".
Proof.
  assert (Hwf : cache_wf (lru initial_state)) by apply Forall_nil.
  assert (Hrun : check_input ascii_text (chain_says "unsafe") (chain_says "hi") no_float_repr
                   {| text := "hello"; user_id := None |} initial_state
                 = (Returned {| status := "blocked";
                                reason := Some "Ollama classified as unsafe";
                                score := Some 1.0%float;
                                response :=
                                  Some "This prompt is unsafe, can't answer." |},
                    snd (check_input ascii_text (chain_says "unsafe") (chain_says "hi")
                           no_float_repr {| text := "hello"; user_id := None |}
                           initial_state))) by reflexivity.
  split; [exact Hwf|]. split; [exact Hrun|].
  exact (proj2 (answered_scores_get_red_style ascii_text (chain_says "unsafe")
                  (chain_says "hi") no_float_repr _ _ _ _ 1.0%float
                  Hwf Hrun eq_refl)).
Defined.

Lemma allowed_text_is_generated_again_at_hello :
  rule_based_checks ascii_text "hello" = None
  /\ cache_wf (lru initial_state)
  /\ is_input_safe ascii_text (chain_says "SAFE") (chain_says "hi") "hello" initial_state
     = (Returned [("status", VStr "allowed"); ("score", VFloat 0.0%float);
                  ("response", VStr "hi")],
        snd (is_input_safe ascii_text (chain_says "SAFE") (chain_says "hi") "hello"
               initial_state))
  /\ exists (reply : str) (s2 : State),
       is_input_safe ascii_text (chain_says "SAFE") (chain_says "hi") "hello"
         (snd (is_input_safe ascii_text (chain_says "SAFE") (chain_says "hi") "hello"
                 initial_state))
         = (Returned [("status", VStr "allowed"); ("score", VFloat 0.0%float);
                      ("response", VStr reply)], s2)
       /\ generate_calls s2 = ["hello"; "hello"].
Proof.
  assert (Hrule : rule_based_checks ascii_text "hello" = None) by reflexivity.
  assert (Hwf : cache_wf (lru initial_state)) by apply Forall_nil.
  assert (Heval : is_input_safe ascii_text (chain_says "SAFE") (chain_says "hi") "hello"
                    initial_state
                  = (Returned [("status", VStr "allowed");
                               ("score", VFloat 0.0%float);
                               ("response", VStr "hi")],
                     snd (is_input_safe ascii_text (chain_says "SAFE") (chain_says "hi")
                            "hello" initial_state))) by reflexivity.
  destruct (allowed_text_is_generated_again ascii_text (chain_says "SAFE") (chain_says "hi")
              "hello" initial_state _ _ Hrule Hwf Heval eq_refl)
    as (reply & s2 & Hagain & _ & _ & Hgen & _).
  split; [exact Hrule|]. split; [exact Hwf|]. split; [exact Heval|].
  exists reply, s2. split; [exact Hagain | exact Hgen].
Defined.
